(** * dnote: the search command's snippet engine (pkg/cli/cmd/search/search.go)

    A shallow embedding of [escapePhrase], [indexAt] and of the per-row
    snippet-building loop of [newRun], together with the part of the Go
    runtime they rely on (byte strings, slice expressions that panic when
    out of range, [strings.Index], [strings.ToLower], [strings.Fields],
    [strings.Join]).

    Go strings are byte sequences: [str] is [list byte].  Go [int]s are
    modelled as [Z]; the numbers that occur are lengths and offsets of
    strings, far from the 64-bit limits, so no wrap-around is written out.

    [strings.ToLower], [strings.Fields]: the model is Go's ASCII fast path
    (bytes 'A'..'Z' are mapped to 'a'..'z', the white space is
    "\t\n\v\f\r "); bytes above 0x7f are left alone, so the model and Go
    agree on every ASCII string ([Go.isASCII]), and the statements that
    rest on the folding or on the fields are made for ASCII strings.  On a
    string with a byte above 0x7f Go folds rune by rune with the tables of
    its library, and the folded copy may have another length: to speak of
    the loop there, [newRun_mark_with] takes the folding function as a
    parameter. *)

From Stdlib Require Import ZArith Lia Strings.String Strings.Byte.
From stdpp Require Import base option list.

Local Open Scope Z_scope.

(** ** Byte strings and the Go runtime *)

Definition str := list byte.

(** A string literal as a byte string. *)
Definition B (s : string) : str := list_byte_of_string s.

(** [len(s)] *)
Definition len {A : Type} (s : list A) : Z := Z.of_nat (length s).

Module Go.

(** The slice expression [s[lo:hi]]: it panics ([None]) unless
    [0 <= lo <= hi <= len(s)]. *)
Definition slice (s : str) (lo hi : Z) : option str :=
  if (0 <=? lo) && (lo <=? hi) && (hi <=? len s)
  then Some (drop (Z.to_nat lo) (take (Z.to_nat hi) s))
  else None.

(** [strings.HasPrefix(s, prefix)] *)
Fixpoint HasPrefix (s prefix : str) {struct prefix} : bool :=
  match prefix, s with
  | [], _ => true
  | p :: prefix', x :: s' => Byte.eqb x p && HasPrefix s' prefix'
  | _ :: _, [] => false
  end.

(** The first position at which [substr] occurs in [s], if any. *)
Fixpoint index (s substr : str) : option nat :=
  if HasPrefix s substr then Some 0%nat
  else match s with
       | [] => None
       | _ :: s' => S <$> index s' substr
       end.

(** [strings.Index(s, substr)]: the index of the first instance of
    [substr] in [s], or -1. *)
Definition Index (s substr : str) : Z :=
  match index s substr with
  | Some i => Z.of_nat i
  | None => -1
  end.

(** One byte of [strings.ToLower] on ASCII input:
    [if 'A' <= c && c <= 'Z' { c += 'a' - 'A' }]. *)
Definition lowerByte (b : byte) : byte :=
  let n := Byte.to_N b in
  if ((65 <=? n) && (n <=? 90))%N
  then match Byte.of_N (n + 32) with Some b' => b' | None => b end
  else b.

(** [strings.ToLower(s)] for an ASCII [s]: byte by byte. *)
Definition ToLower (s : str) : str := map lowerByte s.

(** Every byte is below [utf8.RuneSelf] (0x80): the strings on which
    [strings.ToLower] and [strings.Fields] take their ASCII path. *)
Definition isASCII (s : str) : bool :=
  forallb (λ b, (Byte.to_N b <? 128)%N) s.

(** Go's [asciiSpace] table. *)
Definition isSpace (b : byte) : bool :=
  match b with
  | x09 | x0a | x0b | x0c | x0d | x20 => true
  | _ => false
  end.

(** [strings.Fields(s)] for an ASCII [s]: [s] split around each run of
    white space; [cur] is the field being read. *)
Fixpoint fieldsFrom (cur s : str) : list str :=
  match s with
  | [] => match cur with [] => [] | _ => [cur] end
  | b :: s' =>
      if isSpace b
      then match cur with
           | [] => fieldsFrom [] s'
           | _ => cur :: fieldsFrom [] s'
           end
      else fieldsFrom (cur ++ [b]) s'
  end.

Definition Fields (s : str) : list str := fieldsFrom [] s.

(** [strings.Join(elems, sep)] *)
Fixpoint Join (elems : list str) (sep : str) : str :=
  match elems with
  | [] => []
  | [x] => x
  | x :: rest => x ++ sep ++ Join rest sep
  end.

End Go.

(** What a run of Go code comes to: a value, a run-time panic, or no
    answer within the given number of loop iterations. *)
Inductive outcome (A : Type) : Type :=
| Done (a : A)
| Panic
| OutOfFuel.
Arguments Done {A} a.
Arguments Panic {A}.
Arguments OutOfFuel {A}.

Definition outcome_map {A B : Type} (f : A → B) (o : outcome A) : outcome B :=
  match o with
  | Done a => Done (f a)
  | Panic => Panic
  | OutOfFuel => OutOfFuel
  end.

Definition outcome_bind {A B : Type} (o : outcome A) (f : A → outcome B) : outcome B :=
  match o with
  | Done a => f a
  | Panic => Panic
  | OutOfFuel => OutOfFuel
  end.

(** ** The marker wire format *)

Definition HLB : str := B "<dnotehl>".
Definition HLE : str := B "</dnotehl>".
Definition ELL : str := B "<dnotehl>...</dnotehl>".

Definition DQ : byte := x22.
Definition SP : byte := x20.
Definition LF : byte := x0a.
Definition CR : byte := x0d.

(** ** [escapePhrase] *)

(** The [for idx, term := range terms] loop; [b] is the [strings.Builder].
    Writes to a [strings.Builder] never fail, so the error results of the
    source are always [nil] and are left out. *)
Fixpoint escapePhrase_loop (b : str) (idx : Z) (terms : list str) : str :=
  match terms with
  | [] => b
  | term :: terms' =>
      (* b.WriteString of the term between two double quotes *)
      let b := b ++ [DQ] ++ term ++ [DQ] in
      (* if idx != len(term)-1 { b.WriteByte(' ') } *)
      let b := if negb (idx =? len term - 1) then b ++ [SP] else b in
      escapePhrase_loop b (idx + 1) terms'
  end.

Definition escapePhrase (s : str) : str :=
  escapePhrase_loop [] 0 (Go.Fields s).

(** [escapePhrase] with [strings.Fields] as the parameter [fields], for
    the strings on which Go leaves the ASCII path. *)
Definition escapePhrase_with (fields : str → list str) (s : str) : str :=
  escapePhrase_loop [] 0 (fields s).

(** ** [preRun], [indexAt] and the row loop of [newRun] *)

(** [preRun] refuses an empty argument list. *)
Definition preRun (args : list str) : bool :=
  negb (len args =? 0).

(** [indexAt(s, key, n)]; the slice [s[n:]] panics when [n] is out of
    range. *)
Definition indexAt (s key : str) (n : Z) : option Z :=
  t ← Go.slice s n (len s);
  let idx := Go.Index t key in
  Some (if idx >? -1 then idx + n else idx).

(** [c := 60] *)
Definition c : Z := 60.

(** [phrase := "%" + strings.Join(args[:], "%") + "%"], the LIKE pattern
    handed to [doQuery]. *)
Definition newRun_phrase (args : list str) : str :=
  B "%" ++ Go.Join args (B "%") ++ B "%".

(** One turn of [for idx > -1 { ... }]: from [body], [e], [idx] to their
    next values. *)
Definition newRun_iter (phrase_lwr body : str) (e idx : Z) : option (str * Z * Z) :=
  let n := len phrase_lwr in
  let s := idx - c in
  '(body, idx) ←
    (if s >? e then
       a ← Go.slice body 0 e;
       w ← Go.slice body s idx;
       m ← Go.slice body idx (idx + n);
       r ← Go.slice body (idx + n) (len body);
       Some (a ++ ELL ++ w ++ HLB ++ m ++ HLE ++ r, idx - (s - e) + 22 + 9)
     else
       a ← Go.slice body 0 idx;
       m ← Go.slice body idx (idx + n);
       r ← Go.slice body (idx + n) (len body);
       Some (a ++ HLB ++ m ++ HLE ++ r, idx + 9));
  let e := idx + n + 10 + c in
  idx ← indexAt (Go.ToLower body) phrase_lwr (idx + n + 10);
  Some (body, e, idx).

(** The loop itself; it stops when [idx] is -1 and gives [body] and [e]. *)
Fixpoint newRun_loop (fuel : nat) (phrase_lwr body : str) (e idx : Z)
  : outcome (str * Z) :=
  if idx >? -1 then
    match fuel with
    | O => OutOfFuel
    | S fuel' =>
        match newRun_iter phrase_lwr body e idx with
        | None => Panic
        | Some (body', e', idx') => newRun_loop fuel' phrase_lwr body' e' idx'
        end
    end
  else Done (body, e).

(** [if (e != 0) && (e < len(body)) { body = body[:e] + "<dnotehl>...</dnotehl>" }] *)
Definition newRun_trail (body : str) (e : Z) : outcome str :=
  if negb (e =? 0) && (e <? len body)
  then match Go.slice body 0 e with
       | Some a => Done (a ++ ELL)
       | None => Panic
       end
  else Done body.

(** The marked-up body of one row, from [arg0 = args[0]] and the row's
    [body]: lines 187 to 211 of search.go. *)
Definition newRun_mark (fuel : nat) (arg0 body : str) : outcome str :=
  let phrase_lwr := Go.ToLower arg0 in
  let idx := Go.Index (Go.ToLower body) phrase_lwr in
  outcome_bind (newRun_loop fuel phrase_lwr body 0 idx)
    (λ '(body, e), newRun_trail body e).

(** The same loop with [strings.ToLower] as a parameter [lower], for the
    strings on which Go leaves the ASCII path: [lower] is applied where the
    source calls [strings.ToLower], to [args[0]] once and to [body] before
    the loop and at the end of each turn. *)
Section Folding.
Variable lower : str → str.

Definition newRun_iter_with (phrase_lwr body : str) (e idx : Z)
  : option (str * Z * Z) :=
  let n := len phrase_lwr in
  let s := idx - c in
  '(body, idx) ←
    (if s >? e then
       a ← Go.slice body 0 e;
       w ← Go.slice body s idx;
       m ← Go.slice body idx (idx + n);
       r ← Go.slice body (idx + n) (len body);
       Some (a ++ ELL ++ w ++ HLB ++ m ++ HLE ++ r, idx - (s - e) + 22 + 9)
     else
       a ← Go.slice body 0 idx;
       m ← Go.slice body idx (idx + n);
       r ← Go.slice body (idx + n) (len body);
       Some (a ++ HLB ++ m ++ HLE ++ r, idx + 9));
  let e := idx + n + 10 + c in
  idx ← indexAt (lower body) phrase_lwr (idx + n + 10);
  Some (body, e, idx).

Fixpoint newRun_loop_with (fuel : nat) (phrase_lwr body : str) (e idx : Z)
  : outcome (str * Z) :=
  if idx >? -1 then
    match fuel with
    | O => OutOfFuel
    | S fuel' =>
        match newRun_iter_with phrase_lwr body e idx with
        | None => Panic
        | Some (body', e', idx') => newRun_loop_with fuel' phrase_lwr body' e' idx'
        end
    end
  else Done (body, e).

Definition newRun_mark_with (fuel : nat) (arg0 body : str) : outcome str :=
  let phrase_lwr := lower arg0 in
  let idx := Go.Index (lower body) phrase_lwr in
  outcome_bind (newRun_loop_with fuel phrase_lwr body 0 idx)
    (λ '(body, e), newRun_trail body e).
End Folding.

(** Modelled from the spec: the regular expression [newLineReg] is declared
    in a file of the package that is not at hand; after the spec it matches
    the newline sequences "\n" and "\r\n".
    [newLineReg.ReplaceAllString(s, " ")] puts one space for each. *)
Fixpoint stripNewlines (s : str) : str :=
  match s with
  | [] => []
  | x :: s' =>
      if Byte.eqb x LF then SP :: stripNewlines s'
      else if Byte.eqb x CR then
        match s' with
        | y :: s'' => if Byte.eqb y LF then SP :: stripNewlines s''
                      else x :: stripNewlines s'
        | [] => [x]
        end
      else x :: stripNewlines s'
  end.

(** The marked-up text of one row as [formatFTSSnippet] tokenizes it:
    [args[0]] is the highlighted phrase ([args] is not empty after
    [preRun]; [args[0]] would panic otherwise), the loop marks the raw
    [body], and [formatFTSSnippet] then strips the new lines. *)
Definition newRun_row (fuel : nat) (args : list str) (body : str) : outcome str :=
  match args with
  | [] => Panic
  | arg0 :: _ => outcome_map stripNewlines (newRun_mark fuel arg0 body)
  end.

(** [newRun_row] with [strings.ToLower] as the parameter [lower]. *)
Definition newRun_row_with (lower : str → str) (fuel : nat) (args : list str)
    (body : str) : outcome str :=
  match args with
  | [] => Panic
  | arg0 :: _ => outcome_map stripNewlines (newRun_mark_with lower fuel arg0 body)
  end.

(** ** Occurrences and the excerpt in closed form

    [MatchLocator] follows the words of the specification: it lists the
    occurrences of the folded phrase in the folded body, as offsets into the
    original body, resuming after each occurrence at its end.  [excerptOf]
    is the marked text stated on these offsets, piece by piece; it is what
    the loop of [newRun] computes by rewriting [body] in place
    ([newRun_mark_spec] below), with the cursor, the ellipses and the final
    truncation where the code has them. *)

(** The context size [c], as a number of bytes. *)
Definition C : nat := 60.

(** The bytes of [s] from offset [lo] up to offset [hi]. *)
Definition sub (s : str) (lo hi : nat) : str := drop lo (take hi s).

(** Search resumes at the end of the occurrence just found. *)
Fixpoint locateFrom (fuel : nat) (lwr key : str) (p : nat) : list nat :=
  match fuel with
  | O => []
  | S fuel' =>
      match Go.index (drop p lwr) key with
      | None => []
      | Some j => (p + j)%nat :: locateFrom fuel' lwr key (p + j + length key)
      end
  end.

(** The occurrences of [phrase] in [body]; a search for a key that is not
    empty ends within [len(body) + 1] rounds. *)
Definition MatchLocator (body phrase : str) : list nat :=
  locateFrom (S (length body)) (Go.ToLower body) (Go.ToLower phrase) 0.

(** Marked text, piece by piece. *)
Inductive piece : Type :=
| Plain (t : str)
| Highlight (t : str)
| Ellipsis.

Definition render1 (p : piece) : str :=
  match p with
  | Plain t => t
  | Highlight t => HLB ++ t ++ HLE
  | Ellipsis => ELL
  end.

Definition render (ps : list piece) : str := concat (map render1 ps).

(** The text that is left when the markers and the inserted ellipses are
    deleted. *)
Definition text1 (p : piece) : str :=
  match p with
  | Plain t | Highlight t => t
  | Ellipsis => []
  end.

Definition texts (ps : list piece) : str := concat (map text1 ps).

(** From the place [p] where the previous occurrence ended (with [k] bytes
    of context due after it) to the occurrence at [o]: the cursor is at
    [p + k], a new window opens when [o - C] lies beyond it. *)
Definition between (body : str) (k p o : nat) : list piece :=
  if (p + k + C <? o)%nat
  then [Plain (sub body p (p + k)); Ellipsis; Plain (sub body (o - C) o)]
  else [Plain (sub body p o)].

(** After the last occurrence, which ended at [p]. *)
Definition trailing (body : str) (p : nat) : list piece :=
  if (p + C <? length body)%nat
  then [Plain (sub body p (p + C)); Ellipsis]
  else [Plain (sub body p (length body))].

Fixpoint windows (body : str) (n k p : nat) (occs : list nat) : list piece :=
  match occs with
  | [] => trailing body p
  | o :: occs' =>
      between body k p o ++ Highlight (sub body o (o + n))
        :: windows body n C (o + n) occs'
  end.

Definition excerpt (body : str) (n : nat) (occs : list nat) : list piece :=
  match occs with
  | [] => [Plain body]
  | _ => windows body n 0 0 occs
  end.

Definition excerptOf (body phrase : str) : list piece :=
  excerpt body (length (Go.ToLower phrase)) (MatchLocator body phrase).

(** Between two turns of the loop [body] is [done ++ rest], [rest] being the
    part of the original body after the last occurrence: [idxOf] is the
    value of [idx] then, [d] being the length of [done]. *)
Definition idxOf (key : str) (d : nat) (rest : str) : Z :=
  match Go.index (Go.ToLower rest) key with
  | Some j => Z.of_nat (d + j)
  | None => -1
  end.

(** [key] occurs in [lwr] at offset [i]. *)
Definition occursAt (lwr key : str) (i : nat) : Prop :=
  Go.HasPrefix (drop i lwr) key = true.

(** [occs] is what a search from [p] finds when it resumes, after each
    occurrence, at the end of that occurrence: every member is the first
    occurrence at or after the place where the search resumed, and none
    follows the last. *)
Fixpoint leftmost (lwr key : str) (p : nat) (occs : list nat) : Prop :=
  match occs with
  | [] => ∀ i, (p ≤ i)%nat → ¬ occursAt lwr key i
  | o :: occs' =>
      (p ≤ o)%nat ∧ occursAt lwr key o
      ∧ (∀ i, (p ≤ i < o)%nat → ¬ occursAt lwr key i)
      ∧ leftmost lwr key (o + length key) occs'
  end.

(** [ps] lists occurrences at or after [p], in increasing order, none
    overlapping the next. *)
Fixpoint separated (lwr key : str) (p : nat) (ps : list nat) : Prop :=
  match ps with
  | [] => True
  | q :: ps' =>
      (p ≤ q)%nat ∧ occursAt lwr key q ∧ separated lwr key (q + length key) ps'
  end.

(** The highlighted spans of a marked text. *)
Definition highlights (ps : list piece) : list str :=
  omap (λ p, match p with Highlight t => Some t | _ => None end) ps.

(** Markers in a marked text. *)
Inductive marker : Type := MarkBegin | MarkEnd.

(** The markers of a text, from left to right. *)
Fixpoint markersOf (s : str) : list marker :=
  match s with
  | [] => []
  | _ :: s' =>
      (if Go.HasPrefix s HLB then [MarkBegin]
       else if Go.HasPrefix s HLE then [MarkEnd]
       else [])
      ++ markersOf s'
  end.

Fixpoint begins (ms : list marker) : nat :=
  match ms with
  | [] => 0
  | MarkBegin :: ms' => S (begins ms')
  | MarkEnd :: ms' => begins ms'
  end.

Fixpoint ends (ms : list marker) : nat :=
  match ms with
  | [] => 0
  | MarkBegin :: ms' => ends ms'
  | MarkEnd :: ms' => S (ends ms')
  end.

(** As many begin markers as end markers; at every point of the scan no
    more end markers than begin markers (no end marker before its begin
    marker) and at most one begin marker still open (no nesting). *)
Definition balanced (ms : list marker) : Prop :=
  begins ms = ends ms
  ∧ ∀ k, (ends (take k ms) ≤ begins (take k ms) ≤ ends (take k ms) + 1)%nat.

(** [m] highlighted spans in a row. *)
Fixpoint pairs (m : nat) : list marker :=
  match m with
  | O => []
  | S m' => MarkBegin :: MarkEnd :: pairs m'
  end.

(** The text holds no marker. *)
Definition markerFree (s : str) : Prop := markersOf s = [].

(** The text is empty or begins with the first byte of a marker. *)
Definition atMarker (r : str) : Prop := r = [] ∨ ∃ r', r = "<"%byte :: r'.

(** A new line becomes a space, every other byte stays. *)
Definition spaceLF (b : byte) : byte := if Byte.eqb b LF then SP else b.

(** ** The text that an excerpt leaves out *)

(** The number of ellipses of a marked text. *)
Fixpoint ellipses (ps : list piece) : nat :=
  match ps with
  | [] => 0
  | Ellipsis :: ps' => S (ellipses ps')
  | _ :: ps' => ellipses ps'
  end.


(** The stretches are not empty, they lie between offset [p] and offset
    [n], in increasing order, and no two of them overlap. *)
Fixpoint cutsIn (n p : nat) (cuts : list (nat * nat)) : Prop :=
  match cuts with
  | [] => (p ≤ n)%nat
  | (a, b) :: cuts' => (p ≤ a < b)%nat ∧ cutsIn n b cuts'
  end.




(** ** [doQuery]: the statement and its arguments

    The statement text and the argument list that [doQuery] hands to
    [db.Query]; the query itself runs in the database. *)

Definition TAB : byte := x09.

(** The raw string literal of [doQuery], line by line. *)
Definition doQuery_select : str :=
  B "SELECT" ++ [LF; TAB; TAB]
  ++ B "notes.rowid," ++ [LF; TAB; TAB]
  ++ B "books.label AS book_label," ++ [LF; TAB; TAB]
  ++ B "note_fts.body," ++ [LF; TAB; TAB]
  ++ B "books.archive as archive" ++ [LF; TAB]
  ++ B "FROM note_fts" ++ [LF; TAB]
  ++ B "INNER JOIN notes ON notes.rowid = note_fts.rowid" ++ [LF; TAB]
  ++ B "INNER JOIN books ON notes.book_uuid = books.uuid" ++ [LF; TAB]
  ++ B "WHERE note_fts.body LIKE ?".

Definition doQuery_statement (query bookName : str) (all : bool) : str * list str :=
  let sql := doQuery_select in
  let args := [query] in
  match bookName with
  | _ :: _ =>
      (* bookName is not empty: fmt.Sprintf("%s AND books.label LIKE ?", sql) *)
      (sql ++ B " AND books.label LIKE ?", args ++ [bookName])
  | [] =>
      if negb all
      then (sql ++ B " AND books.archive = false", args)
      else (sql, args)
  end.

(** The number of bytes [x] in [s]. *)
Fixpoint countByte (x : byte) (s : str) : nat :=
  match s with
  | [] => 0
  | y :: s' => (if Byte.eqb y x then 1 else 0) + countByte x s'
  end.

(** ** The formatting loop of [formatFTSSnippet]

    Modelled from the spec: the token type and [tokenize] are declared in a
    file of the package that is not at hand.  A token is a byte of text or
    one of the three marks the loop tests for (highlight begin, highlight
    end, end of line); the loop is modelled on the tokens it is given. *)

Inductive tokenKind : Type :=
| tokenKindChar
| tokenKindHLBegin
| tokenKindHLEnd
| tokenKindEOL.

Record token : Type := { Kind : tokenKind; Value : byte }.

(** [fmt.Sprintf] for a format of [%s] verbs and as many string operands.
    [None] stands for the cases left out: another verb, too few or too many
    operands (Go then writes a diagnostic into the result). *)
Fixpoint Sprintf_s (format : str) (args : list str) : option str :=
  match format with
  | [] => match args with [] => Some [] | _ :: _ => None end
  | x :: format' =>
      if Byte.eqb x "%" then
        match format' with
        | y :: format'' =>
            if Byte.eqb y "s" then
              match args with
              | a :: args' => (λ r, a ++ r) <$> Sprintf_s format'' args'
              | [] => None
              end
            else None
        | [] => None
        end
      else (λ r, x :: r) <$> Sprintf_s format' args
  end.

Section Format.
(** [log.ColorYellow.Sprintf("%s", text)]: the text in the terminal's
    yellow. *)
Variable yellow : str → str.

(** The loop state: [format], [args] and [buf]. *)
Definition fmtState : Type := str * list str * str.

(** One turn of [for _, tok := range toks]. *)
Definition formatFTSSnippet_step (st : fmtState) (tok : token) : fmtState :=
  let '(format, args, buf) := st in
  match Kind tok with
  | tokenKindHLBegin | tokenKindEOL => (format ++ B "%s", args ++ [buf], [])
  | tokenKindHLEnd => (format ++ B "%s", args ++ [yellow buf], [])
  | tokenKindChar => (format, args, buf ++ [Value tok])
  end.

(** The loop and the final [fmt.Sprintf(format.String(), args...)]. *)
Definition formatFTSSnippet_toks (toks : list token) : option str :=
  let '(format, args, _) := fold_left formatFTSSnippet_step toks ([], [], []) in
  Sprintf_s format args.
End Format.

(** The format has one verb for each operand. *)
Definition fmtWf (st : fmtState) : Prop :=
  st.1.1 = concat (replicate (length st.1.2) (B "%s")).

(** What has been read so far, as it will be shown. *)
Definition fmtText (st : fmtState) : str := concat st.1.2 ++ st.2.

(** The tokens of a text without marks. *)
Definition charToks (t : str) : list token :=
  map (λ b, {| Kind := tokenKindChar; Value := b |}) t.

Definition markTok (k : tokenKind) : token := {| Kind := k; Value := x00 |}.

(** The tokens of a piece of marked text: the marks stand where the
    markers are. *)
Definition pieceToks (p : piece) : list token :=
  match p with
  | Plain t => charToks t
  | Highlight t => markTok tokenKindHLBegin :: charToks t ++ [markTok tokenKindHLEnd]
  | Ellipsis =>
      markTok tokenKindHLBegin :: charToks (B "...") ++ [markTok tokenKindHLEnd]
  end.

(** A piece as it is shown. *)
Definition shown (yellow : str → str) (p : piece) : str :=
  match p with
  | Plain t => t
  | Highlight t => yellow t
  | Ellipsis => yellow (B "...")
  end.

(** The text of the tokens that are bytes of text. *)
Definition tokText (toks : list token) : str :=
  omap (λ tok, match Kind tok with tokenKindChar => Some (Value tok) | _ => None end) toks.

(** ** [escapePhrase]: the intended format *)

Definition quoteTerm (term : str) : str := [DQ] ++ term ++ [DQ].

(** The text without its spaces. *)
Definition withoutSpaces (s : str) : str :=
  List.filter (λ b, negb (Byte.eqb b SP)) s.

Arguments HLB : simpl never.
Arguments HLE : simpl never.
Arguments ELL : simpl never.

(** ** Facts about the runtime model *)

Example escapePhrase_empty : escapePhrase [] = [].
Proof. reflexivity. Qed.

Example mark_quick :
  newRun_mark 2 (B "quick") (B "the quick brown fox")
  = Done (B "the <dnotehl>quick</dnotehl> brown fox").
Proof. vm_compute. reflexivity. Qed.

Example mark_close_occurrences :
  newRun_mark 20 (B "fox") (B "a Fox, a fox")
  = Done (B "a <dnotehl>Fox</dnotehl>, a <dnotehl>fox</dnotehl>").
Proof. vm_compute. reflexivity. Qed.

Lemma len_app {A} (s t : list A) : len (s ++ t) = len s + len t.
Proof. unfold len. rewrite length_app. lia. Qed.

Lemma len_HLB : length HLB = 9%nat.
Proof. reflexivity. Qed.

Lemma len_HLE : length HLE = 10%nat.
Proof. reflexivity. Qed.

Lemma len_ELL : length ELL = 22%nat.
Proof. reflexivity. Qed.

Lemma c_C : c = Z.of_nat C.
Proof. reflexivity. Qed.

Lemma length_sub (s : str) lo hi :
  (lo ≤ hi ≤ length s)%nat → length (sub s lo hi) = (hi - lo)%nat.
Proof. intros H. unfold sub. rewrite length_drop, length_take. lia. Qed.

Section Slices.
Variables done rest : str.

Lemma slice_app_prefix (k : nat) :
  (k ≤ length rest)%nat →
  Go.slice (done ++ rest) 0 (len done + Z.of_nat k) = Some (done ++ take k rest).
Proof.
  intros Hk. unfold Go.slice, len. rewrite length_app.
  replace ((0 <=? 0) && (0 <=? Z.of_nat (length done) + Z.of_nat k)
           && (Z.of_nat (length done) + Z.of_nat k
               <=? Z.of_nat (length done + length rest)%nat)) with true
    by (symmetry; rewrite !andb_true_iff, !Z.leb_le; lia).
  replace (Z.to_nat (Z.of_nat (length done) + Z.of_nat k))
    with (length done + k)%nat by lia.
  change (Z.to_nat 0) with 0%nat. rewrite drop_0.
  by rewrite take_app_add.
Qed.

Lemma slice_app_inner (a b : nat) :
  (a ≤ b ≤ length rest)%nat →
  Go.slice (done ++ rest) (len done + Z.of_nat a) (len done + Z.of_nat b)
  = Some (sub rest a b).
Proof.
  intros Hab. unfold Go.slice, len. rewrite length_app.
  replace ((0 <=? Z.of_nat (length done) + Z.of_nat a)
           && (Z.of_nat (length done) + Z.of_nat a
               <=? Z.of_nat (length done) + Z.of_nat b)
           && (Z.of_nat (length done) + Z.of_nat b
               <=? Z.of_nat (length done + length rest)%nat)) with true
    by (symmetry; rewrite !andb_true_iff, !Z.leb_le; lia).
  replace (Z.to_nat (Z.of_nat (length done) + Z.of_nat a))
    with (length done + a)%nat by lia.
  replace (Z.to_nat (Z.of_nat (length done) + Z.of_nat b))
    with (length done + b)%nat by lia.
  rewrite take_app_add.
  by rewrite drop_app_add.
Qed.

Lemma slice_app_suffix (a : nat) :
  (a ≤ length rest)%nat →
  Go.slice (done ++ rest) (len done + Z.of_nat a) (len (done ++ rest))
  = Some (drop a rest).
Proof.
  intros Ha. rewrite len_app.
  replace (len rest) with (Z.of_nat (length rest)) by reflexivity.
  rewrite slice_app_inner by lia.
  unfold sub. by rewrite take_ge by lia.
Qed.
End Slices.

Lemma HasPrefix_spec (s p : str) : Go.HasPrefix s p = true ↔ p `prefix_of` s.
Proof.
  revert s. induction p as [|x p IH]; intros s; simpl.
  - split; [intros _; apply prefix_nil | done].
  - destruct s as [|y s].
    + split; [done | intros H; by apply prefix_nil_not in H].
    + rewrite andb_true_iff, IH. split.
      * intros [Hxy Hp]. apply Byte.byte_dec_bl in Hxy as ->.
        by apply prefix_cons.
      * intros H. split.
        -- apply prefix_cons_inv_1 in H as ->. by apply Byte.byte_dec_lb.
        -- by apply prefix_cons_inv_2 in H.
Qed.

Lemma HasPrefix_length (s p : str) :
  Go.HasPrefix s p = true → (length p ≤ length s)%nat.
Proof. rewrite HasPrefix_spec. apply prefix_length. Qed.

Lemma HasPrefix_nil (s : str) : Go.HasPrefix s [] = true.
Proof. by destruct s. Qed.

(** [index] finds the first occurrence. *)
Lemma index_Some (s key : str) (j : nat) :
  Go.index s key = Some j →
  Go.HasPrefix (drop j s) key = true
  ∧ ∀ i, (i < j)%nat → Go.HasPrefix (drop i s) key = false.
Proof.
  revert j. induction s as [|x s IH]; intros j; simpl.
  - destruct (Go.HasPrefix [] key) eqn:E; [|done].
    intros [= <-]. split; [done | lia].
  - destruct (Go.HasPrefix (x :: s) key) eqn:E.
    + intros [= <-]. split; [done | lia].
    + destruct (Go.index s key) as [j'|] eqn:Ej; simpl; [|done].
      intros [= <-]. destruct (IH j' eq_refl) as [H1 H2].
      split; [done|]. intros [|i] Hi; simpl; [done | apply H2; lia].
Qed.

Lemma index_None (s key : str) (i : nat) :
  Go.index s key = None → Go.HasPrefix (drop i s) key = false.
Proof.
  revert i. induction s as [|x s IH]; intros i; simpl.
  - destruct (Go.HasPrefix [] key) eqn:E; [done|]. by rewrite drop_nil.
  - destruct (Go.HasPrefix (x :: s) key) eqn:E; [done|].
    destruct (Go.index s key) eqn:Ej; simpl; [done|].
    intros _. destruct i; simpl; [done | by apply IH].
Qed.

(** Conversely, the first occurrence is what [index] finds. *)
Lemma index_first (s key : str) (j : nat) :
  Go.HasPrefix (drop j s) key = true →
  (∀ i, (i < j)%nat → Go.HasPrefix (drop i s) key = false) →
  Go.index s key = Some j.
Proof.
  intros H1 H2. destruct (Go.index s key) as [j'|] eqn:E.
  - apply index_Some in E as [E1 E2].
    destruct (Nat.lt_trichotomy j j') as [Hlt|[->|Hlt]]; [|done|].
    + rewrite E2 in H1 by done. done.
    + rewrite H2 in E1 by done. done.
  - by rewrite (index_None _ _ j E) in H1.
Qed.

Lemma index_le (s key : str) (j : nat) :
  Go.index s key = Some j → (j ≤ length s)%nat.
Proof.
  revert j. induction s as [|x s IH]; intros j; simpl.
  - destruct (Go.HasPrefix [] key); [|done]. intros [= <-]. lia.
  - destruct (Go.HasPrefix (x :: s) key); [intros [= <-]; lia|].
    destruct (Go.index s key) as [j'|]; simpl; [|done].
    intros [= <-]. specialize (IH j' eq_refl). lia.
Qed.

Lemma index_bound (s key : str) (j : nat) :
  Go.index s key = Some j → (j + length key ≤ length s)%nat.
Proof.
  intros H. pose proof (index_le _ _ _ H) as Hle.
  apply index_Some in H as [H _].
  apply HasPrefix_length in H. rewrite length_drop in H. lia.
Qed.

Lemma index_nil_key (s : str) : Go.index s [] = Some 0%nat.
Proof. by destruct s. Qed.

Lemma ToLower_app (s t : str) : Go.ToLower (s ++ t) = Go.ToLower s ++ Go.ToLower t.
Proof. apply map_app. Qed.

Lemma ToLower_length (s : str) : length (Go.ToLower s) = length s.
Proof. apply length_map. Qed.

Lemma ToLower_drop (s : str) (n : nat) : Go.ToLower (drop n s) = drop n (Go.ToLower s).
Proof. unfold Go.ToLower. by rewrite <- fmap_drop. Qed.

Lemma ToLower_take (s : str) (n : nat) : Go.ToLower (take n s) = take n (Go.ToLower s).
Proof. unfold Go.ToLower. by rewrite <- fmap_take. Qed.

Lemma ToLower_HLB : Go.ToLower HLB = HLB.
Proof. reflexivity. Qed.

Lemma render_app (ps qs : list piece) : render (ps ++ qs) = render ps ++ render qs.
Proof. unfold render. by rewrite map_app, concat_app. Qed.

Lemma render_cons (p : piece) (ps : list piece) : render (p :: ps) = render1 p ++ render ps.
Proof. reflexivity. Qed.

Lemma render_nil : render [] = [].
Proof. reflexivity. Qed.

Lemma sub_drop (s : str) (p a b : nat) : sub (drop p s) a b = sub s (p + a) (p + b).
Proof.
  unfold sub. rewrite take_drop_commute, drop_drop. do 2 f_equal.
Qed.

Lemma sub_0 (s : str) (b : nat) : sub s 0 b = take b s.
Proof. reflexivity. Qed.

(** ** One turn of the loop

    Between two turns [body] is [done ++ rest]: [done] is the text marked so
    far, [rest] the part of the original body after the last occurrence.
    The cursor [e] is [k] bytes into [rest]; [idx] is where the phrase first
    occurs in [rest], seen from the start of [body]. *)

Lemma indexAt_app (key done rest : str) (z : Z) :
  z = len done →
  indexAt (Go.ToLower (done ++ rest)) key z = Some (idxOf key (length done) rest).
Proof.
  intros ->. unfold indexAt. rewrite ToLower_app.
  replace (len done) with (len (Go.ToLower done) + Z.of_nat 0)
    by (unfold len; rewrite ToLower_length; lia).
  rewrite slice_app_suffix by lia. rewrite drop_0. simpl.
  unfold idxOf, Go.Index, len. rewrite ToLower_length.
  destruct (Go.index (Go.ToLower rest) key) as [j|]; simpl.
  - replace (Z.of_nat j >? -1) with true by (symmetry; apply Z.gtb_lt; lia).
    f_equal. lia.
  - reflexivity.
Qed.

Lemma newRun_iter_tail (key body done' rest' : str) (z e e' : Z) :
  body = done' ++ rest' → z = len done' → e = e' →
  (idx ← indexAt (Go.ToLower body) key z; Some (body, e, idx))
  = Some (done' ++ rest', e', idxOf key (length done') rest').
Proof.
  intros -> Hz ->. by rewrite indexAt_app.
Qed.

Lemma newRun_iter_spec (key done rest : str) (k j : nat) :
  Go.index (Go.ToLower rest) key = Some j →
  let n := length key in
  let done' := done ++ render (between rest k 0 j ++ [Highlight (sub rest j (j + n))]) in
  let rest' := drop (j + n) rest in
  newRun_iter key (done ++ rest) (len done + Z.of_nat k) (len done + Z.of_nat j)
  = Some (done' ++ rest', len done' + c, idxOf key (length done') rest').
Proof.
  intros Hj n done' rest'.
  pose proof (index_bound _ _ _ Hj) as Hb. rewrite ToLower_length in Hb.
  fold n in Hb.
  unfold newRun_iter.
  replace (len done + Z.of_nat j + len key) with (len done + Z.of_nat (j + n))
    by (unfold len, n; lia).
  rewrite (slice_app_inner done rest j (j + n)) by lia.
  rewrite (slice_app_suffix done rest (j + n)) by lia.
  subst done'. unfold between. rewrite Nat.add_0_l.
  destruct (Nat.ltb_spec (k + C) j) as [Hlt|Hge].
  - replace (len done + Z.of_nat j - c >? len done + Z.of_nat k) with true
      by (symmetry; apply Z.gtb_lt; rewrite c_C; lia).
    rewrite (slice_app_prefix done rest k) by lia.
    replace (len done + Z.of_nat j - c) with (len done + Z.of_nat (j - C))
      by (rewrite c_C; lia).
    rewrite (slice_app_inner done rest (j - C) j) by lia.
    cbn [mbind option_bind].
    assert (Hlen : len (done ++ render
              ([Plain (sub rest 0 k); Ellipsis; Plain (sub rest (j - C) j)]
                 ++ [Highlight (sub rest j (j + n))]))
            = len done + Z.of_nat k + c + 31 + Z.of_nat n + 10).
    { cbn [render map concat render1 app]. rewrite app_nil_r.
      unfold len. rewrite !length_app, len_ELL, len_HLB, len_HLE.
      rewrite !length_sub by lia. rewrite c_C. lia. }
    apply newRun_iter_tail.
    + cbn [render map concat render1 app]. rewrite app_nil_r.
      rewrite sub_0. unfold rest'. by rewrite <- !app_assoc.
    + rewrite Hlen, ?c_C. unfold len, n. lia.
    + rewrite Hlen, ?c_C. unfold len, n. lia.
  - replace (len done + Z.of_nat j - c >? len done + Z.of_nat k) with false
      by (symmetry; rewrite Z.gtb_ltb; apply Z.ltb_ge; rewrite c_C; lia).
    rewrite (slice_app_prefix done rest j) by lia.
    cbn [mbind option_bind].
    assert (Hlen : len (done ++ render
              ([Plain (sub rest 0 j)] ++ [Highlight (sub rest j (j + n))]))
            = len done + Z.of_nat j + 9 + Z.of_nat n + 10).
    { cbn [render map concat render1 app]. rewrite app_nil_r.
      unfold len. rewrite !length_app, len_HLB, len_HLE.
      rewrite !length_sub by lia. lia. }
    apply newRun_iter_tail.
    + cbn [render map concat render1 app]. rewrite app_nil_r.
      rewrite sub_0. unfold rest'. by rewrite <- !app_assoc.
    + rewrite Hlen, ?c_C. unfold len, n. lia.
    + rewrite Hlen, ?c_C. unfold len, n. lia.
Qed.

(** ** The loop against the excerpt *)

Lemma between_drop (body : str) (k p j : nat) :
  between (drop p body) k 0 j = between body k p (p + j).
Proof.
  unfold between. rewrite Nat.add_0_l.
  destruct (Nat.ltb_spec (k + C) j) as [H|H];
    [replace (p + k + C <? p + j)%nat with true by (symmetry; apply Nat.ltb_lt; lia)
    |replace (p + k + C <? p + j)%nat with false by (symmetry; apply Nat.ltb_ge; lia)].
  - rewrite !sub_drop. rewrite Nat.add_0_r.
    by replace (p + (j - C))%nat with (p + j - C)%nat by lia.
  - by rewrite sub_drop, Nat.add_0_r.
Qed.

Lemma idxOf_Some (key : str) (d : nat) (rest : str) (j : nat) :
  Go.index (Go.ToLower rest) key = Some j →
  idxOf key d rest = Z.of_nat d + Z.of_nat j.
Proof. unfold idxOf. intros ->. lia. Qed.

Lemma idxOf_None (key : str) (d : nat) (rest : str) :
  Go.index (Go.ToLower rest) key = None → idxOf key d rest = -1.
Proof. unfold idxOf. by intros ->. Qed.

(** After the first occurrence: the cursor is [C] bytes into the rest. *)
Lemma newRun_loop_after (key body : str) :
  key ≠ [] →
  ∀ (fuel fuel' p : nat) (done : str),
    (p ≤ length body)%nat →
    (length body - p < fuel)%nat →
    (length body - p < fuel')%nat →
    outcome_bind
      (newRun_loop fuel key (done ++ drop p body) (len done + c)
         (idxOf key (length done) (drop p body)))
      (λ '(body, e), newRun_trail body e)
    = Done (done ++ render (windows body (length key) C p
                              (locateFrom fuel' (Go.ToLower body) key p))).
Proof.
  intros Hkey fuel. induction fuel as [|fuel IH]; intros fuel' p done Hp Hf Hf';
    [lia|].
  destruct fuel' as [|fuel']; [lia|].
  cbn [locateFrom newRun_loop]. rewrite <- ToLower_drop.
  destruct (Go.index (Go.ToLower (drop p body)) key) as [j|] eqn:Hj.
  - rewrite (idxOf_Some _ _ _ _ Hj).
    replace (Z.of_nat (length done) + Z.of_nat j >? -1) with true
      by (symmetry; apply Z.gtb_lt; lia).
    pose proof (index_bound _ _ _ Hj) as Hb.
    rewrite ToLower_length, length_drop in Hb.
    assert (0 < length key)%nat by (destruct key; [done | simpl; lia]).
    rewrite c_C.
    change (Z.of_nat (length done)) with (len done).
    rewrite (newRun_iter_spec key done (drop p body) C j Hj).
    cbv zeta. rewrite drop_drop.
    replace (p + (j + length key))%nat with (p + j + length key)%nat by lia.
    rewrite (IH fuel') by lia.
    f_equal. rewrite <- app_assoc. f_equal.
    cbn [windows]. rewrite between_drop, sub_drop.
    rewrite <- render_app. f_equal. rewrite <- app_assoc. simpl.
    by rewrite Nat.add_assoc.
  - rewrite (idxOf_None _ _ _ Hj).
    change (-1 >? -1) with false. cbn [windows outcome_bind]. cbv iota beta.
    unfold newRun_trail, trailing.
    replace (negb (len done + c =? 0)) with true
      by (symmetry; apply negb_true_iff, Z.eqb_neq; unfold len, c; lia).
    rewrite len_app. cbn [andb].
    destruct (Nat.ltb_spec (p + C) (length body)) as [Hlt|Hge].
    + replace (len done + c <? len done + len (drop p body)) with true
        by (symmetry; apply Z.ltb_lt; unfold len; rewrite c_C, length_drop; lia).
      rewrite c_C, slice_app_prefix by (rewrite length_drop; lia).
      f_equal. rewrite <- app_assoc. f_equal.
      cbn [render map concat render1 app]. rewrite app_nil_r.
      unfold sub. by rewrite take_drop_commute.
    + replace (len done + c <? len done + len (drop p body)) with false
        by (symmetry; apply Z.ltb_ge; unfold len; rewrite c_C, length_drop; lia).
      f_equal. f_equal. cbn [render map concat render1 app]. rewrite app_nil_r.
      unfold sub. by rewrite take_ge.
Qed.

(** The marked-up body is the excerpt of the specification, rendered. *)
Lemma newRun_mark_spec (fuel : nat) (arg0 body : str) :
  Go.ToLower arg0 ≠ [] →
  (length body < fuel)%nat →
  newRun_mark fuel arg0 body = Done (render (excerptOf body arg0)).
Proof.
  intros Hkey Hfuel. unfold newRun_mark, excerptOf, MatchLocator.
  set (key := Go.ToLower arg0) in *.
  destruct fuel as [|fuel]; [lia|].
  cbn [locateFrom newRun_loop]. rewrite drop_0. unfold Go.Index.
  destruct (Go.index (Go.ToLower body) key) as [j|] eqn:Hj.
  - replace (Z.of_nat j >? -1) with true by (symmetry; apply Z.gtb_lt; lia).
    pose proof (index_bound _ _ _ Hj) as Hb. rewrite ToLower_length in Hb.
    assert (0 < length key)%nat by (destruct key; [done | simpl; lia]).
    pose proof (newRun_iter_spec key [] body 0 j Hj) as Hit.
    cbv zeta in Hit. rewrite !app_nil_l in Hit.
    change (len [] + Z.of_nat 0) with 0 in Hit.
    change (len [] + Z.of_nat j) with (Z.of_nat j) in Hit.
    rewrite Hit.
    pose proof (newRun_loop_after key body Hkey fuel (length body) (j + length key)
                  (render (between body 0 0 j
                             ++ [Highlight (sub body j (j + length key))]))) as Hl.
    rewrite Hl by lia.
    f_equal. rewrite <- render_app. f_equal.
    cbn [excerpt windows]. rewrite <- app_assoc. simpl. reflexivity.
  - change (-1 >? -1) with false. cbv iota beta.
    cbn [outcome_bind]. unfold newRun_trail. cbn [excerpt].
    change (negb (0 =? 0)) with false. cbn [andb].
    f_equal. cbn [render map concat render1]. by rewrite app_nil_r.
Qed.

(** ** The loop on ASCII text and beyond *)

Lemma isASCII_app (s t : str) :
  Go.isASCII (s ++ t) = Go.isASCII s && Go.isASCII t.
Proof. apply forallb_app. Qed.

Lemma isASCII_take (s : str) (n : nat) :
  Go.isASCII s = true → Go.isASCII (take n s) = true.
Proof.
  revert n. induction s as [|x s IH]; intros [|n]; try done.
  cbn [take Go.isASCII forallb]. rewrite !andb_true_iff. intros [? ?].
  split; [done|]. by apply IH.
Qed.

Lemma isASCII_drop (s : str) (n : nat) :
  Go.isASCII s = true → Go.isASCII (drop n s) = true.
Proof.
  revert n. induction s as [|x s IH]; intros [|n]; try done.
  cbn [drop Go.isASCII forallb]. rewrite !andb_true_iff. intros [? ?].
  by apply IH.
Qed.

Lemma isASCII_slice (s t : str) (lo hi : Z) :
  Go.isASCII s = true → Go.slice s lo hi = Some t → Go.isASCII t = true.
Proof.
  intros Hs. unfold Go.slice. destruct (_ && _); [|done].
  intros [= <-]. by apply isASCII_drop, isASCII_take.
Qed.

Section FoldingFacts.
Variable lower : str → str.
Hypothesis lower_ascii : ∀ s, Go.isASCII s = true → lower s = Go.ToLower s.

Lemma newRun_iter_with_ascii (key body : str) (e idx : Z) :
  Go.isASCII body = true →
  newRun_iter_with lower key body e idx = newRun_iter key body e idx
  ∧ ∀ body' e' idx',
      newRun_iter key body e idx = Some (body', e', idx') →
      Go.isASCII body' = true.
Proof.
  intros Hb. unfold newRun_iter_with, newRun_iter.
  destruct (idx - c >? e).
  - destruct (Go.slice body 0 e) as [a|] eqn:Ha; [|done].
    destruct (Go.slice body (idx - c) idx) as [w|] eqn:Hw; [|done].
    destruct (Go.slice body idx (idx + len key)) as [m|] eqn:Hm; [|done].
    destruct (Go.slice body (idx + len key) (len body)) as [r|] eqn:Hr; [|done].
    cbn [mbind option_bind].
    assert (Go.isASCII (a ++ ELL ++ w ++ HLB ++ m ++ HLE ++ r) = true) as Hnew.
    { rewrite !isASCII_app, (isASCII_slice _ _ _ _ Hb Ha),
        (isASCII_slice _ _ _ _ Hb Hw), (isASCII_slice _ _ _ _ Hb Hm),
        (isASCII_slice _ _ _ _ Hb Hr). reflexivity. }
    rewrite (lower_ascii _ Hnew). split; [done|].
    intros body' e' idx'. destruct (indexAt _ _ _); [|done].
    cbn [mbind option_bind]. by intros [= <- _ _].
  - destruct (Go.slice body 0 idx) as [a|] eqn:Ha; [|done].
    destruct (Go.slice body idx (idx + len key)) as [m|] eqn:Hm; [|done].
    destruct (Go.slice body (idx + len key) (len body)) as [r|] eqn:Hr; [|done].
    cbn [mbind option_bind].
    assert (Go.isASCII (a ++ HLB ++ m ++ HLE ++ r) = true) as Hnew.
    { rewrite !isASCII_app, (isASCII_slice _ _ _ _ Hb Ha),
        (isASCII_slice _ _ _ _ Hb Hm), (isASCII_slice _ _ _ _ Hb Hr).
      reflexivity. }
    rewrite (lower_ascii _ Hnew). split; [done|].
    intros body' e' idx'. destruct (indexAt _ _ _); [|done].
    cbn [mbind option_bind]. by intros [= <- _ _].
Qed.

Lemma newRun_loop_with_ascii (fuel : nat) (key body : str) (e idx : Z) :
  Go.isASCII body = true →
  newRun_loop_with lower fuel key body e idx = newRun_loop fuel key body e idx.
Proof.
  revert body e idx. induction fuel as [|fuel IH]; intros body e idx Hb;
    cbn [newRun_loop_with newRun_loop]; [done|].
  destruct (idx >? -1); [|done].
  destruct (newRun_iter_with_ascii key body e idx Hb) as [-> Hnext].
  destruct (newRun_iter key body e idx) as [[[body' e'] idx']|]; [|done].
  apply IH. by eapply Hnext.
Qed.
End FoldingFacts.

(** On ASCII text the loop does not depend on what [strings.ToLower] does
    outside ASCII: the markers it writes are ASCII, so the body stays ASCII
    from turn to turn, and with any folding function that folds ASCII
    strings byte by byte, as [strings.ToLower] does, the run comes to the
    same end as with the byte-wise folding. *)
Lemma newRun_mark_with_ascii (lower : str → str) (fuel : nat) (arg0 body : str) :
  (∀ s, Go.isASCII s = true → lower s = Go.ToLower s) →
  Go.isASCII arg0 = true → Go.isASCII body = true →
  newRun_mark_with lower fuel arg0 body = newRun_mark fuel arg0 body.
Proof.
  intros Hl Ha Hb. unfold newRun_mark_with, newRun_mark.
  rewrite (Hl _ Ha), (Hl _ Hb). by rewrite newRun_loop_with_ascii.
Qed.

Lemma newRun_mark_with_spec (lower : str → str) (fuel : nat) (arg0 body : str) :
  (∀ s, Go.isASCII s = true → lower s = Go.ToLower s) →
  Go.isASCII arg0 = true → Go.isASCII body = true →
  Go.ToLower arg0 ≠ [] →
  (length body < fuel)%nat →
  newRun_mark_with lower fuel arg0 body = Done (render (excerptOf body arg0)).
Proof.
  intros Hl Ha Hb Hk Hf. rewrite newRun_mark_with_ascii by done.
  by apply newRun_mark_spec.
Qed.

Lemma isASCII_stripNewlines (s : str) :
  Go.isASCII s = true → Go.isASCII (stripNewlines s) = true.
Proof.
  remember (length s) as n eqn:Hn. revert s Hn.
  induction n as [n IH] using lt_wf_ind. intros s -> Hs.
  destruct s as [|x s]; [done|]. cbn [stripNewlines].
  cbn [Go.isASCII forallb] in Hs. apply andb_true_iff in Hs as [Hx Hs].
  destruct (Byte.eqb x LF).
  - cbn [Go.isASCII forallb]. apply andb_true_iff. split; [done|].
    apply (IH (length s)); [simpl; lia | done | done].
  - destruct (Byte.eqb x CR).
    + destruct s as [|y s]; [by cbn [Go.isASCII forallb]; rewrite Hx|].
      cbn [Go.isASCII forallb] in Hs. apply andb_true_iff in Hs as [Hy Hs].
      destruct (Byte.eqb y LF).
      * cbn [Go.isASCII forallb]. apply andb_true_iff. split; [done|].
        apply (IH (length s)); [simpl; lia | done | done].
      * cbn [Go.isASCII forallb]. apply andb_true_iff. split; [done|].
        apply (IH (length (y :: s))); [simpl; lia | done |].
        cbn [Go.isASCII forallb]. by rewrite Hy.
    + cbn [Go.isASCII forallb]. apply andb_true_iff. split; [done|].
      apply (IH (length s)); [simpl; lia | done | done].
Qed.

(** ** What [MatchLocator] finds *)

Section Occurrences.
Variables lwr key : str.

Lemma occursAt_bound (i : nat) :
  key ≠ [] → occursAt lwr key i → (i + length key ≤ length lwr)%nat.
Proof.
  intros Hk H. apply HasPrefix_length in H. rewrite length_drop in H.
  destruct key; [done | simpl in *; lia].
Qed.

Lemma locateFrom_leftmost (fuel p : nat) :
  key ≠ [] → (length lwr - p < fuel)%nat →
  leftmost lwr key p (locateFrom fuel lwr key p).
Proof.
  intros Hk. revert p. induction fuel as [|fuel IH]; intros p Hf; [lia|].
  simpl. destruct (Go.index (drop p lwr) key) as [j|] eqn:Hj; simpl.
  - pose proof (index_bound _ _ _ Hj) as Hb. rewrite length_drop in Hb.
    apply index_Some in Hj as [H1 H2]. rewrite drop_drop in H1.
    assert (0 < length key)%nat by (destruct key; [done | simpl; lia]).
    split; [lia|]. split; [done|]. split.
    + intros i [Hpi Hio]. unfold occursAt.
      replace i with (p + (i - p))%nat by lia.
      rewrite <- drop_drop, H2 by lia. done.
    + apply IH. lia.
  - intros i Hi. unfold occursAt.
    replace i with (p + (i - p))%nat by lia.
    rewrite <- drop_drop, (index_None _ _ _ Hj). done.
Qed.

Lemma separated_weaken (p p' : nat) (ps : list nat) :
  (p' ≤ p)%nat → separated lwr key p ps → separated lwr key p' ps.
Proof. destruct ps; simpl; [done|]. intros ? (? & ? & ?). split; [lia | done]. Qed.

Lemma leftmost_separated (p : nat) (occs : list nat) :
  leftmost lwr key p occs → separated lwr key p occs.
Proof.
  revert p. induction occs as [|o occs IH]; intros p; simpl; [done|].
  intros (? & ? & _ & ?). auto.
Qed.

(** No family of occurrences that do not overlap is larger than the one
    found by resuming at each end. *)
Lemma leftmost_max (p : nat) (occs ps : list nat) :
  leftmost lwr key p occs → separated lwr key p ps → (length ps ≤ length occs)%nat.
Proof.
  revert p ps. induction occs as [|o occs IH]; intros p ps; simpl.
  - intros Hno. destruct ps as [|q ps]; simpl; [lia|].
    intros (Hq & Hocc & _). by apply Hno in Hocc.
  - intros (Hpo & Ho & Hfirst & Hrest). destruct ps as [|q ps]; simpl; [lia|].
    intros (Hq & Hocc & Hsep).
    assert (o ≤ q)%nat.
    { destruct (decide (o ≤ q)%nat); [done|]. exfalso.
      apply (Hfirst q); [lia | done]. }
    apply le_n_S, (IH (o + length key)%nat); [done|].
    eapply separated_weaken; [|done]. lia.
Qed.

Lemma leftmost_increasing (p : nat) (occs : list nat) (i o1 o2 : nat) :
  leftmost lwr key p occs → occs !! i = Some o1 → occs !! S i = Some o2 →
  (o1 + length key ≤ o2)%nat.
Proof.
  revert p i. induction occs as [|o occs IH]; intros p i; simpl; [done|].
  intros (_ & _ & _ & Hrest). destruct i as [|i]; simpl.
  - intros [= ->]. destruct occs as [|o' occs]; simpl; [done|].
    intros [= ->]. simpl in Hrest. lia.
  - by apply (IH (o + length key)%nat).
Qed.

Lemma leftmost_Forall (p : nat) (occs : list nat) :
  leftmost lwr key p occs → Forall (occursAt lwr key) occs.
Proof.
  revert p. induction occs as [|o occs IH]; intros p; simpl; [constructor|].
  intros (_ & ? & _ & ?). constructor; eauto.
Qed.
End Occurrences.

Lemma occursAt_sub (body key : str) (o : nat) :
  occursAt (Go.ToLower body) key o →
  Go.ToLower (sub body o (o + length key)) = key.
Proof.
  unfold occursAt. rewrite HasPrefix_spec. intros [t Ht].
  unfold sub. rewrite ToLower_drop, ToLower_take.
  rewrite <- take_drop_commute, Ht.
  by rewrite take_app_length.
Qed.

Lemma highlights_windows (body : str) (n k p : nat) (occs : list nat) :
  highlights (windows body n k p occs) = map (λ o, sub body o (o + n)) occs.
Proof.
  revert k p. induction occs as [|o occs IH]; intros k p; simpl.
  - unfold trailing. by destruct (_ <? _)%nat.
  - unfold highlights. rewrite omap_app. cbn [omap mbind list_omap].
    fold (highlights (windows body n C (o + n) occs)). rewrite IH.
    unfold between. by destruct (_ <? _)%nat.
Qed.

Lemma highlights_excerpt (body : str) (n : nat) (occs : list nat) :
  highlights (excerpt body n occs) = map (λ o, sub body o (o + n)) occs.
Proof. destruct occs; [done|]. apply highlights_windows. Qed.

Lemma MatchLocator_leftmost (body phrase : str) :
  Go.ToLower phrase ≠ [] →
  leftmost (Go.ToLower body) (Go.ToLower phrase) 0 (MatchLocator body phrase).
Proof.
  intros Hk. apply locateFrom_leftmost; [done|]. rewrite ToLower_length. lia.
Qed.

Lemma nonempty_length (s : str) : s ≠ [] → (0 < length s)%nat.
Proof. destruct s; [done | simpl; lia]. Qed.


Lemma windows_middle (body : str) (n k p : nat) (l1 l2 : list nat) (o1 o2 : nat) :
  ∃ pre, windows body n k p (l1 ++ o1 :: o2 :: l2)
         = pre ++ Highlight (sub body o1 (o1 + n))
               :: between body C (o1 + n) o2
               ++ Highlight (sub body o2 (o2 + n))
               :: windows body n C (o2 + n) l2.
Proof.
  revert k p. induction l1 as [|x l1 IH]; intros k p; simpl.
  - by exists (between body k p o1).
  - destruct (IH C (x + n)%nat) as [pre ->].
    exists (between body k p x ++ Highlight (sub body x (x + n)) :: pre).
    by rewrite <- app_assoc.
Qed.

(** ** The claims on windows, occurrences and the phrase *)

(** C1, as amended.  The cursor [emitted] does not stop at the end of the
    previous occurrence: it stands [C] bytes after it (the previous window
    keeps its trailing context).  With that cursor the rule is the stated
    one: for two consecutive occurrences [o1], [o2], and
    [windowStart = max(o2 - C, emitted)], a new window opens at [o2] exactly
    when [windowStart > emitted]: then the trailing context of [o1], an
    ellipsis marker and the slice [body[windowStart:o2]] stand between the
    two highlighted occurrences; otherwise the windows merge and exactly the
    literal slice [body[o1.end:o2]] stands between them, without an ellipsis.
    The statement is for ASCII text, on which the folded copy has the
    offsets of the body; [lower] stands for [strings.ToLower], which folds
    ASCII strings byte by byte. *)
Theorem C1_window_merge_rule
  (lower : str → str) (body phrase : str) (l1 l2 : list nat) (o1 o2 : nat) :
  (∀ s, Go.isASCII s = true → lower s = Go.ToLower s) →
  Go.isASCII body = true → Go.isASCII phrase = true →
  Go.ToLower phrase ≠ [] →
  MatchLocator body phrase = l1 ++ o1 :: o2 :: l2 →
  let n := length (Go.ToLower phrase) in
  let emitted := Z.of_nat (o1 + n) + c in
  let windowStart := Z.max (Z.of_nat o2 - c) emitted in
  ∃ pre mid post,
    (∀ fuel, (length body < fuel)%nat →
       newRun_mark_with lower fuel phrase body
       = Done (pre ++ (HLB ++ sub body o1 (o1 + n) ++ HLE) ++ mid
                   ++ (HLB ++ sub body o2 (o2 + n) ++ HLE) ++ post))
    ∧ mid = if windowStart >? emitted
            then sub body (o1 + n) (Z.to_nat emitted) ++ ELL
                   ++ sub body (Z.to_nat windowStart) o2
            else sub body (o1 + n) o2.
Proof.
  intros Hl Hb Hp Hk Hocc n emitted windowStart.
  destruct (windows_middle body n 0 0 l1 l2 o1 o2) as [pre Hw].
  exists (render pre), (render (between body C (o1 + n) o2)),
    (render (windows body n C (o2 + n) l2)).
  split.
  - intros fuel Hf. rewrite (newRun_mark_with_spec lower) by done.
    unfold excerptOf. rewrite Hocc. fold n.
    replace (excerpt body n (l1 ++ o1 :: o2 :: l2))
      with (windows body n 0 0 (l1 ++ o1 :: o2 :: l2)) by (by destruct l1).
    rewrite Hw. rewrite render_app, render_cons, render_app, render_cons.
    reflexivity.
  - unfold between. subst emitted windowStart. rewrite c_C.
    destruct (Nat.ltb_spec (o1 + n + C + C) o2) as [Hlt|Hge].
    + replace (Z.max _ _ >? _) with true by (symmetry; apply Z.gtb_lt; lia).
      cbn [render map concat render1 app]. rewrite app_nil_r.
      replace (Z.to_nat (Z.of_nat (o1 + n) + Z.of_nat C)) with (o1 + n + C)%nat by lia.
      replace (Z.to_nat (Z.max (Z.of_nat o2 - Z.of_nat C) (Z.of_nat (o1 + n) + Z.of_nat C)))
        with (o2 - C)%nat by lia.
      reflexivity.
    + replace (Z.max _ _ >? _) with false
        by (symmetry; rewrite Z.gtb_ltb; apply Z.ltb_ge; lia).
      cbn [render map concat render1 app]. by rewrite app_nil_r.
Qed.

Lemma C1_window_merge_rule_witness :
  ∃ pre mid post,
    (∀ fuel, (length (B "ab  ab") < fuel)%nat →
       newRun_mark_with Go.ToLower fuel (B "ab") (B "ab  ab")
       = Done (pre ++ (HLB ++ sub (B "ab  ab") 0 2 ++ HLE) ++ mid
                   ++ (HLB ++ sub (B "ab  ab") 4 6 ++ HLE) ++ post))
    ∧ mid = if Z.max (Z.of_nat 4 - c) (Z.of_nat (0 + 2) + c) >? Z.of_nat (0 + 2) + c
            then sub (B "ab  ab") (0 + 2) (Z.to_nat (Z.of_nat (0 + 2) + c)) ++ ELL
                   ++ sub (B "ab  ab") (Z.to_nat (Z.max (Z.of_nat 4 - c) (Z.of_nat (0 + 2) + c))) 4
            else sub (B "ab  ab") (0 + 2) 4.
Proof.
  apply (C1_window_merge_rule Go.ToLower (B "ab  ab") (B "ab") [] [] 0 4);
    [done | reflexivity | reflexivity | discriminate | reflexivity].
Defined.

(** C1 as stated fails.  The two occurrences of "ab" are 100 bytes apart:
    with [emitted] at the end of the first occurrence (offset 2),
    [windowStart = max(102 - 60, 2) = 42 > emitted] and the claim has a new
    window open at the second occurrence.  The code merges the two: the
    whole gap stands between the highlighted occurrences, with no ellipsis. *)
Lemma C1_counterexample :
  let body := B "ab" ++ replicate 100 "x"%byte ++ B "ab" in
  MatchLocator body (B "ab") = [0; 102]%nat
  ∧ Z.max (102 - c) 2 > 2
  ∧ newRun_mark 200 (B "ab") body
    = Done ((HLB ++ B "ab" ++ HLE) ++ replicate 100 "x"%byte ++ (HLB ++ B "ab" ++ HLE))
  ∧ Go.Index ((HLB ++ B "ab" ++ HLE) ++ replicate 100 "x"%byte ++ (HLB ++ B "ab" ++ HLE))
      ELL = -1.
Proof. vm_compute. repeat split. Qed.




(** C5, as amended.  The code has no [emitted > 0] test: whenever an
    occurrence opens a new window the ellipsis marker is written before it,
    at the very start of the body too.  When the first occurrence starts
    more than [C] bytes into the body, the output begins with the ellipsis
    marker, then the context slice [body[o.start-C:o.start]] and the
    highlighted occurrence.  The statement is for ASCII text, on which the
    folded copy has the offsets of the body; [lower] stands for
    [strings.ToLower], which folds ASCII strings byte by byte. *)
Theorem C5_leading_ellipsis
  (lower : str → str) (fuel o : nat) (phrase body : str) :
  (∀ s, Go.isASCII s = true → lower s = Go.ToLower s) →
  Go.isASCII body = true → Go.isASCII phrase = true →
  Go.ToLower phrase ≠ [] →
  (length body < fuel)%nat →
  Go.Index (lower body) (lower phrase) = Z.of_nat o →
  c < Z.of_nat o →
  ∃ post,
    newRun_mark_with lower fuel phrase body
    = Done (ELL ++ sub body (o - C) o
              ++ (HLB ++ sub body o (o + length (Go.ToLower phrase)) ++ HLE)
              ++ post).
Proof.
  intros Hl Hb Hp Hk Hf Hidx Ho. rewrite (newRun_mark_with_spec lower) by done.
  rewrite (Hl _ Hb), (Hl _ Hp) in Hidx.
  unfold excerptOf, MatchLocator. cbn [locateFrom]. rewrite drop_0.
  unfold Go.Index in Hidx.
  destruct (Go.index (Go.ToLower body) (Go.ToLower phrase)) as [j|]; [|lia].
  assert (j = o) as -> by lia.
  rewrite !Nat.add_0_l. cbn [excerpt windows]. unfold between.
  replace (0 + 0 + C <? o)%nat with true
    by (symmetry; apply Nat.ltb_lt; rewrite c_C in Ho; lia).
  exists (render (windows body (length (Go.ToLower phrase)) C
                    (o + length (Go.ToLower phrase))
                    (locateFrom (length body) (Go.ToLower body) (Go.ToLower phrase)
                       (o + length (Go.ToLower phrase))))).
  rewrite render_app, render_cons. f_equal.
  cbn [render map concat render1 app]. rewrite app_nil_r.
  unfold sub at 1. rewrite take_0, drop_nil, app_nil_l.
  by rewrite <- !app_assoc.
Qed.

Lemma C5_leading_ellipsis_witness :
  ∃ post,
    newRun_mark_with Go.ToLower 64 (B "ab") (replicate 61 "x"%byte ++ B "ab")
    = Done (ELL ++ sub (replicate 61 "x"%byte ++ B "ab") (61 - C) 61
              ++ (HLB ++ sub (replicate 61 "x"%byte ++ B "ab") 61
                           (61 + length (Go.ToLower (B "ab"))) ++ HLE)
              ++ post).
Proof.
  apply (C5_leading_ellipsis Go.ToLower 64 61 (B "ab")
           (replicate 61 "x"%byte ++ B "ab")).
  - done.
  - reflexivity.
  - reflexivity.
  - discriminate.
  - vm_compute. lia.
  - reflexivity.
  - reflexivity.
Defined.

(** C5 as stated fails: the first occurrence starts at offset 61, more than
    [C = 60] bytes into the body, and the output begins with the ellipsis
    marker, not with the context slice [body[1:61]]. *)
Lemma C5_counterexample :
  let body := replicate 61 "x"%byte ++ B "ab" in
  Go.Index (Go.ToLower body) (Go.ToLower (B "ab")) = 61
  ∧ newRun_mark 64 (B "ab") body
    = Done (ELL ++ replicate 60 "x"%byte ++ HLB ++ B "ab" ++ HLE)
  ∧ ¬ (∃ post, newRun_mark 64 (B "ab") body = Done (sub body 1 61 ++ post)).
Proof.
  cbv zeta. split; [by vm_compute|]. split; [by vm_compute|].
  intros [post H].
  apply (f_equal (λ o, match o with Done s => head s | _ => None end)) in H.
  vm_compute in H. discriminate.
Qed.

(** C9.  The offsets are taken in the folded copy of the body and used in
    the body itself.  On a row that holds four letters U+023A (two bytes
    each, c8 ba) and an "x", 9 bytes in all, [strings.ToLower] gives four
    letters U+2C65 (three bytes each, e2 b1 a5) and the "x": the phrase "x"
    occurs once, at offset 12 of the folded copy, and the first turn of the
    loop slices the 9-byte body at [body[:12]]: the run panics, and no
    occurrence is reported.  [lower] stands for [strings.ToLower], of which
    the two values used are given. *)
Theorem C9_folded_offsets_misalign (lower : str → str) (fuel : nat) :
  let body := concat (replicate 4 [xc8; xba]) ++ B "x" in
  let folded := concat (replicate 4 [xe2; xb1; xa5]) ++ B "x" in
  lower (B "x") = B "x" →
  lower body = folded →
  len body = 9
  ∧ Go.Index (lower body) (lower (B "x")) = 12
  ∧ newRun_mark_with lower (S fuel) (B "x") body = Panic.
Proof.
  intros body folded Hx Hb. unfold newRun_mark_with. rewrite Hx, Hb.
  split; [reflexivity|]. split; reflexivity.
Qed.

Lemma C9_folded_offsets_misalign_witness :
  let lower := λ s, if Go.isASCII s then Go.ToLower s
                    else concat (replicate 4 [xe2; xb1; xa5]) ++ B "x" in
  let body := concat (replicate 4 [xc8; xba]) ++ B "x" in
  len body = 9
  ∧ Go.Index (lower body) (lower (B "x")) = 12
  ∧ newRun_mark_with lower 1 (B "x") body = Panic.
Proof.
  intros lower body.
  apply (C9_folded_offsets_misalign lower 0); reflexivity.
Defined.

(** With the byte-wise folding the slices of the loop are in range
    whatever the phrase, and the final truncation too: a run never
    panics. *)
Lemma newRun_trail_no_panic (body : str) (e : Z) :
  0 ≤ e → newRun_trail body e ≠ Panic.
Proof.
  intros He. unfold newRun_trail.
  destruct (negb (e =? 0) && (e <? len body)) eqn:Hc; [|done].
  apply andb_true_iff in Hc as [_ Hlt]. apply Z.ltb_lt in Hlt.
  unfold Go.slice.
  replace ((0 <=? 0) && (0 <=? e) && (e <=? len body)) with true; [done|].
  symmetry. rewrite !andb_true_iff, !Z.leb_le. lia.
Qed.

Lemma newRun_loop_no_panic (key : str) (fuel : nat) :
  ∀ (done rest : str) (k : nat),
    outcome_bind
      (newRun_loop fuel key (done ++ rest) (len done + Z.of_nat k)
         (idxOf key (length done) rest))
      (λ '(body, e), newRun_trail body e) ≠ Panic.
Proof.
  induction fuel as [|fuel IH]; intros done rest k.
  - cbn [newRun_loop]. destruct (_ >? _); [done|].
    cbn [outcome_bind]. apply newRun_trail_no_panic. unfold len. lia.
  - cbn [newRun_loop].
    destruct (Go.index (Go.ToLower rest) key) as [j|] eqn:Hj.
    + rewrite (idxOf_Some _ _ _ _ Hj).
      replace (Z.of_nat (length done) + Z.of_nat j >? -1) with true
        by (symmetry; apply Z.gtb_lt; lia).
      change (Z.of_nat (length done)) with (len done).
      rewrite (newRun_iter_spec key done rest k j Hj). cbv zeta.
      rewrite c_C. apply IH.
    + rewrite (idxOf_None _ _ _ Hj). change (-1 >? -1) with false.
      cbn [outcome_bind]. apply newRun_trail_no_panic. unfold len. lia.
Qed.

Lemma newRun_mark_no_panic (fuel : nat) (phrase body : str) :
  newRun_mark fuel phrase body ≠ Panic.
Proof.
  unfold newRun_mark.
  pose proof (newRun_loop_no_panic (Go.ToLower phrase) fuel [] body 0) as H.
  rewrite app_nil_l in H. exact H.
Qed.

(** With an empty phrase every turn of the loop finds the phrase again, at
    the place where the search resumes. *)
Lemma newRun_loop_empty_key (fuel : nat) :
  ∀ (done rest : str) (k : nat),
    newRun_loop fuel [] (done ++ rest) (len done + Z.of_nat k)
      (idxOf [] (length done) rest) = OutOfFuel.
Proof.
  assert (Hgt : ∀ d : nat, (Z.of_nat d + Z.of_nat 0 >? -1) = true)
    by (intros d; apply Z.gtb_lt; lia).
  induction fuel as [|fuel IH]; intros marked rest k;
    rewrite (idxOf_Some [] _ _ 0 (index_nil_key _));
    cbn [newRun_loop]; rewrite Hgt; [reflexivity|].
  change (Z.of_nat (length marked)) with (len marked).
  rewrite (newRun_iter_spec [] marked rest k 0 (index_nil_key _)). cbv zeta.
  rewrite c_C. apply IH.
Qed.

(** C3.  The query goes out with every argument, the highlighting takes
    [args[0]] alone: the arguments after the first never reach the loop.
    On the command [dnote search foo bar] the LIKE pattern is "%foo%bar%"
    and only "foo" is highlighted in a row that holds both terms.  The
    context size is 60. *)
Theorem C3_only_first_argument_highlighted :
  (∀ fuel arg0 others body,
     newRun_row fuel (arg0 :: others) body = newRun_row fuel [arg0] body)
  ∧ preRun [B "foo"; B "bar"] = true
  ∧ newRun_phrase [B "foo"; B "bar"] = B "%foo%bar%"
  ∧ newRun_row 8 [B "foo"; B "bar"] (B "foo bar")
    = Done (B "<dnotehl>foo</dnotehl> bar")
  ∧ c = 60.
Proof. repeat split. Qed.

(** C4.  [escapePhrase] compares the index of a term with the length of
    that term ([len(term)-1]), not with the number of terms: between "a"
    and "b" no space is written, and one is written after "b".  The result
    for "a b" is quote-a-quote-quote-b-quote-space, not the stated
    quote-a-quote space quote-b-quote.  The empty input gives the empty
    string. *)
Theorem C4_escapePhrase_separator :
  escapePhrase (B "a b") = [DQ; "a"; DQ; DQ; "b"; DQ; SP]%byte
  ∧ escapePhrase (B "a b") ≠ [DQ; "a"; DQ; SP; DQ; "b"; DQ]%byte
  ∧ escapePhrase (B "foo") = [DQ; "f"; "o"; "o"; DQ; SP]%byte
  ∧ escapePhrase [] = [].
Proof. repeat split. discriminate. Qed.

(** C10.  The empty phrase passes [preRun], and with it the loop never
    ends: [strings.Index] finds the empty string at once, at the place where
    the search resumes, and each turn puts an empty highlight into the body.
    No number of turns gives a result.  (No slice is out of range on the
    way, [newRun_mark_no_panic], and a phrase that is not empty gives a
    result within [len(body) + 1] turns, [newRun_mark_spec].) *)
Theorem C10_empty_phrase_diverges :
  preRun [[]] = true
  ∧ ∀ (fuel : nat) (body : str), newRun_mark fuel [] body = OutOfFuel.
Proof.
  split; [reflexivity|]. intros fuel body.
  unfold newRun_mark.
  pose proof (newRun_loop_empty_key fuel [] body 0) as H.
  rewrite app_nil_l in H.
  change (len [] + Z.of_nat 0) with 0 in H.
  change (Go.ToLower []) with (@nil byte).
  replace (Go.Index (Go.ToLower body) []) with (idxOf [] (length (@nil byte)) body)
    by (unfold Go.Index, idxOf; by rewrite !index_nil_key).
  by rewrite H.
Qed.

(** ** The claim on markers *)

Lemma balanced_pairs (m : nat) : balanced (pairs m).
Proof.
  split.
  - induction m; simpl; lia.
  - induction m as [|m IH]; intros k; simpl.
    + rewrite take_nil. simpl. lia.
    + destruct k as [|[|k]]; simpl; [lia | lia |]. specialize (IH k). lia.
Qed.

Lemma HasPrefix_app_at (q a r' : str) :
  "<"%byte ∉ q →
  Go.HasPrefix (a ++ "<"%byte :: r') q = true → Go.HasPrefix a q = true.
Proof.
  revert a. induction q as [|y q IH]; intros a Hq; simpl; [done|].
  destruct a as [|x a]; simpl.
  - rewrite andb_true_iff. intros [Hy _].
    apply Byte.byte_dec_bl in Hy. subst y. exfalso. apply Hq. by left.
  - rewrite !andb_true_iff. intros [? ?]. split; [done|].
    apply IH; [|done]. intros ?. apply Hq. by right.
Qed.

Lemma HasPrefix_app_marker (p a r : str) :
  (∃ q, p = "<"%byte :: q ∧ "<"%byte ∉ q) → atMarker r →
  Go.HasPrefix a p = false → a ≠ [] → Go.HasPrefix (a ++ r) p = false.
Proof.
  intros (q & -> & Hq) [->|[r' ->]] Ha Hne; [by rewrite app_nil_r|].
  destruct a as [|x a]; [done|].
  destruct (Go.HasPrefix ((x :: a) ++ "<"%byte :: r') ("<"%byte :: q)) eqn:E; [|done].
  simpl in E, Ha. apply andb_true_iff in E as [E1 E2].
  apply HasPrefix_app_at in E2; [|done]. by rewrite E1, E2 in Ha.
Qed.

Lemma HLB_shape : ∃ q, HLB = "<"%byte :: q ∧ "<"%byte ∉ q.
Proof.
  eexists. split; [reflexivity|].
  rewrite !not_elem_of_cons. repeat split; try discriminate. apply not_elem_of_nil.
Qed.

Lemma HLE_shape : ∃ q, HLE = "<"%byte :: q ∧ "<"%byte ∉ q.
Proof.
  eexists. split; [reflexivity|].
  rewrite !not_elem_of_cons. repeat split; try discriminate. apply not_elem_of_nil.
Qed.

Lemma markerFree_cons (x : byte) (s : str) :
  markerFree (x :: s) →
  Go.HasPrefix (x :: s) HLB = false ∧ Go.HasPrefix (x :: s) HLE = false
  ∧ markerFree s.
Proof.
  unfold markerFree. cbn [markersOf].
  destruct (Go.HasPrefix (x :: s) HLB); [done|].
  destruct (Go.HasPrefix (x :: s) HLE); [done|]. done.
Qed.

Lemma markersOf_free_app (a r : str) :
  markerFree a → atMarker r → markersOf (a ++ r) = markersOf r.
Proof.
  intros Ha Hr. induction a as [|x a IH]; [done|].
  apply markerFree_cons in Ha as (H1 & H2 & Ha).
  change ((x :: a) ++ r) with (x :: (a ++ r)). cbn [markersOf].
  change (x :: (a ++ r)) with ((x :: a) ++ r).
  rewrite (HasPrefix_app_marker HLB (x :: a) r HLB_shape Hr H1) by done.
  rewrite (HasPrefix_app_marker HLE (x :: a) r HLE_shape Hr H2) by done.
  by apply IH.
Qed.

Lemma markersOf_HLB (r : str) : markersOf (HLB ++ r) = MarkBegin :: markersOf r.
Proof. reflexivity. Qed.

Lemma markersOf_HLE (r : str) : markersOf (HLE ++ r) = MarkEnd :: markersOf r.
Proof. reflexivity. Qed.

Lemma markersOf_ELL (r : str) :
  markersOf (ELL ++ r) = MarkBegin :: MarkEnd :: markersOf r.
Proof. reflexivity. Qed.

Lemma atMarker_HLB (r : str) : atMarker (HLB ++ r).
Proof. right. eexists. reflexivity. Qed.

Lemma atMarker_HLE (r : str) : atMarker (HLE ++ r).
Proof. right. eexists. reflexivity. Qed.

Lemma atMarker_ELL (r : str) : atMarker (ELL ++ r).
Proof. right. eexists. reflexivity. Qed.

Lemma markerFree_drop (s : str) (n : nat) : markerFree s → markerFree (drop n s).
Proof.
  revert s. induction n as [|n IH]; intros s Hs; [done|].
  destruct s as [|x s]; [done|]. simpl.
  apply IH. by apply markerFree_cons in Hs as (_ & _ & ?).
Qed.

Lemma HasPrefix_take (s p : str) (n : nat) :
  Go.HasPrefix s p = false → Go.HasPrefix (take n s) p = false.
Proof.
  intros H. destruct (Go.HasPrefix (take n s) p) eqn:E; [|done].
  apply HasPrefix_spec in E.
  assert (p `prefix_of` s) as Hp by (etrans; [exact E | apply prefix_take]).
  apply HasPrefix_spec in Hp. congruence.
Qed.

Lemma markerFree_take (s : str) (n : nat) : markerFree s → markerFree (take n s).
Proof.
  revert s. induction n as [|n IH]; intros s Hs; [by rewrite take_0|].
  destruct s as [|x s]; [done|].
  apply markerFree_cons in Hs as (H1 & H2 & Hs).
  unfold markerFree. change (take (S n) (x :: s)) with (x :: take n s).
  cbn [markersOf]. change (x :: take n s) with (take (S n) (x :: s)).
  rewrite (HasPrefix_take _ _ _ H1), (HasPrefix_take _ _ _ H2).
  by apply IH.
Qed.

Lemma markerFree_sub (s : str) (lo hi : nat) : markerFree s → markerFree (sub s lo hi).
Proof. intros. by apply markerFree_drop, markerFree_take. Qed.

(** The markers of the excerpt of a body that holds none: one pair for
    each highlighted occurrence and each ellipsis. *)
Lemma markersOf_windows (body : str) (n k p : nat) (occs : list nat) :
  markerFree body →
  ∃ m, markersOf (render (windows body n k p occs)) = pairs m.
Proof.
  intros Hb. revert k p. induction occs as [|o occs IH]; intros k p.
  - cbn [windows]. unfold trailing. destruct (_ <? _)%nat.
    + exists 1%nat. cbn [render map concat render1]. rewrite app_nil_r.
      rewrite markersOf_free_app;
        [|by apply markerFree_sub | rewrite <- (app_nil_r ELL); apply atMarker_ELL].
      reflexivity.
    + exists 0%nat. cbn [render map concat render1]. rewrite app_nil_r.
      rewrite <- (app_nil_r (sub _ _ _)).
      rewrite markersOf_free_app; [done | by apply markerFree_sub | by left].
  - cbn [windows]. destruct (IH C (o + n)%nat) as [m Hm].
    rewrite render_app, render_cons. cbn [render1].
    assert (markersOf ((HLB ++ sub body o (o + n) ++ HLE)
                         ++ render (windows body n C (o + n) occs))
            = pairs (S m)) as Hhl.
    { rewrite <- !app_assoc. rewrite markersOf_HLB.
      rewrite markersOf_free_app;
        [|by apply markerFree_sub | apply atMarker_HLE].
      rewrite markersOf_HLE, Hm. reflexivity. }
    unfold between. destruct (_ <? _)%nat.
    + exists (S (S m)). cbn [render map concat render1]. rewrite app_nil_r.
      rewrite <- !app_assoc.
      rewrite markersOf_free_app;
        [|by apply markerFree_sub | apply atMarker_ELL].
      rewrite markersOf_ELL.
      rewrite markersOf_free_app;
        [|by apply markerFree_sub | apply atMarker_HLB].
      rewrite !app_assoc. rewrite <- (app_assoc HLB). rewrite Hhl. reflexivity.
    + exists (S m). cbn [render map concat render1]. rewrite app_nil_r.
      rewrite markersOf_free_app;
        [|by apply markerFree_sub | rewrite <- !app_assoc; apply atMarker_HLB].
      exact Hhl.
Qed.

(** C6, as amended.  Markers are plain text and nothing escapes them, so a
    body that holds marker text itself breaks the balance.  For every body
    that holds no marker text and every phrase whose folded form is not
    empty, the output has as many begin markers as end markers, no end
    marker comes before its begin marker, and no highlighted span is
    nested in another.  The statement is for ASCII text, on which the
    folded copy has the offsets of the body; [lower] stands for
    [strings.ToLower], which folds ASCII strings byte by byte. *)
Theorem C6_marker_balance (lower : str → str) (body phrase : str) :
  (∀ s, Go.isASCII s = true → lower s = Go.ToLower s) →
  Go.isASCII body = true → Go.isASCII phrase = true →
  markerFree body →
  Go.ToLower phrase ≠ [] →
  ∃ out,
    (∀ fuel, (length body < fuel)%nat →
       newRun_mark_with lower fuel phrase body = Done out)
    ∧ balanced (markersOf out).
Proof.
  intros Hl Ha Hp Hb Hk. exists (render (excerptOf body phrase)).
  split; [intros fuel Hf; by apply newRun_mark_with_spec|].
  unfold excerptOf.
  destruct (MatchLocator body phrase) as [|o occs].
  - cbn [excerpt render map concat render1]. rewrite app_nil_r.
    unfold markerFree in Hb. rewrite Hb. apply (balanced_pairs 0).
  - destruct (markersOf_windows body (length (Go.ToLower phrase)) 0 0 (o :: occs) Hb)
      as [m Hm].
    cbn [excerpt]. rewrite Hm. apply balanced_pairs.
Qed.

Lemma C6_marker_balance_witness :
  ∃ out,
    (∀ fuel, (length (B "the quick brown fox") < fuel)%nat →
       newRun_mark_with Go.ToLower fuel (B "quick") (B "the quick brown fox")
       = Done out)
    ∧ balanced (markersOf out).
Proof.
  apply C6_marker_balance;
    [done | reflexivity | reflexivity | reflexivity | discriminate].
Defined.

(** C6 as stated fails: the body holds the text of an end marker, and the
    output has one begin marker and two end markers, the first of them
    before any begin marker. *)
Lemma C6_counterexample :
  newRun_mark 20 (B "x") (B "</dnotehl>x")
  = Done (B "</dnotehl><dnotehl>x</dnotehl>")
  ∧ begins (markersOf (B "</dnotehl><dnotehl>x</dnotehl>")) = 1%nat
  ∧ ends (markersOf (B "</dnotehl><dnotehl>x</dnotehl>")) = 2%nat
  ∧ ¬ balanced (markersOf (B "</dnotehl><dnotehl>x</dnotehl>")).
Proof.
  repeat split. intros [H _]. vm_compute in H. discriminate.
Qed.

(** ** The claim on the text of the excerpt *)

Lemma texts_app (ps qs : list piece) : texts (ps ++ qs) = texts ps ++ texts qs.
Proof. unfold texts. by rewrite map_app, concat_app. Qed.


Lemma drop_sub_split (s : str) (a b : nat) :
  (a ≤ b)%nat → drop a s = sub s a b ++ drop b s.
Proof.
  intros H. unfold sub.
  rewrite <- (take_drop (b - a) (drop a s)). f_equal.
  - rewrite take_drop_commute. do 2 f_equal. lia.
  - rewrite drop_drop. f_equal. lia.
Qed.




Lemma cutsIn_le (n p : nat) (cuts : list (nat * nat)) :
  cutsIn n p cuts → (p ≤ n)%nat.
Proof.
  revert p. induction cuts as [|[a b] cuts IH]; intros p; cbn [cutsIn]; [done|].
  intros [Hab Hc]. apply IH in Hc. lia.
Qed.








(** ** The claim on new lines *)

Lemma stripNewlines_map (s : str) : CR ∉ s → stripNewlines s = map spaceLF s.
Proof.
  induction s as [|x s IH]; [done|]. intros Hx.
  apply not_elem_of_cons in Hx as [Hx Hs].
  cbn [stripNewlines map]. unfold spaceLF at 1.
  destruct (Byte.eqb x LF); [by rewrite IH|].
  destruct (Byte.eqb x CR) eqn:E; [|by rewrite IH].
  apply Byte.byte_dec_bl in E. congruence.
Qed.

Lemma lowerByte_spaceLF (b : byte) :
  Go.lowerByte (spaceLF b) = spaceLF (Go.lowerByte b).
Proof. by destruct b. Qed.

Lemma ToLower_spaceLF (s : str) :
  Go.ToLower (map spaceLF s) = map spaceLF (Go.ToLower s).
Proof.
  unfold Go.ToLower. rewrite !map_map. apply map_ext.
  intros b. apply lowerByte_spaceLF.
Qed.

Lemma eqb_spaceLF (x p : byte) :
  p ≠ SP → p ≠ LF → Byte.eqb (spaceLF x) p = Byte.eqb x p.
Proof.
  intros H1 H2. unfold spaceLF. destruct (Byte.eqb x LF) eqn:E; [|done].
  apply Byte.byte_dec_bl in E. subst x.
  destruct (Byte.eqb SP p) eqn:E1; [apply Byte.byte_dec_bl in E1; congruence|].
  destruct (Byte.eqb LF p) eqn:E2; [apply Byte.byte_dec_bl in E2; congruence|].
  done.
Qed.

Section NoSpaceInKey.
Variable key : str.
Hypothesis key_SP : SP ∉ key.
Hypothesis key_LF : LF ∉ key.

Lemma HasPrefix_spaceLF (s : str) :
  Go.HasPrefix (map spaceLF s) key = Go.HasPrefix s key.
Proof using key_SP key_LF.
  revert s key_SP key_LF. induction key as [|p q IH]; intros s HSP HLF; [done|].
  apply not_elem_of_cons in HSP as [? ?]. apply not_elem_of_cons in HLF as [? ?].
  destruct s as [|x s]; [done|]. simpl.
  rewrite eqb_spaceLF by done. by rewrite IH.
Qed.

Lemma index_spaceLF (s : str) :
  Go.index (map spaceLF s) key = Go.index s key.
Proof using key_SP key_LF.
  induction s as [|x s IH].
  - reflexivity.
  - change (map spaceLF (x :: s)) with (spaceLF x :: map spaceLF s).
    cbn [Go.index]. change (spaceLF x :: map spaceLF s) with (map spaceLF (x :: s)).
    by rewrite HasPrefix_spaceLF, IH.
Qed.

Lemma locateFrom_spaceLF (fuel : nat) (lwr : str) (p : nat) :
  locateFrom fuel (map spaceLF lwr) key p = locateFrom fuel lwr key p.
Proof using key_SP key_LF.
  revert p. induction fuel as [|fuel IH]; intros p; [done|].
  cbn [locateFrom]. rewrite skipn_map, index_spaceLF.
  destruct (Go.index (drop p lwr) key); [|done]. by rewrite IH.
Qed.
End NoSpaceInKey.

Lemma sub_map (f : byte → byte) (s : str) (a b : nat) :
  sub (map f s) a b = map f (sub s a b).
Proof. unfold sub. by rewrite firstn_map, skipn_map. Qed.

Lemma render_windows_spaceLF (body : str) (n k p : nat) (occs : list nat) :
  render (windows (map spaceLF body) n k p occs)
  = map spaceLF (render (windows body n k p occs)).
Proof.
  revert k p. induction occs as [|o occs IH]; intros k p.
  - cbn [windows]. unfold trailing. rewrite length_map.
    destruct (_ <? _)%nat; cbn [render map concat render1];
      rewrite !app_nil_r, ?map_app, sub_map; reflexivity.
  - cbn [windows]. rewrite !render_app, !render_cons, IH. cbn [render1].
    rewrite !map_app, sub_map. f_equal.
    unfold between. destruct (_ <? _)%nat; cbn [render map concat render1];
      rewrite !app_nil_r, ?map_app, !sub_map; reflexivity.
Qed.

Lemma render_excerpt_spaceLF (body : str) (n : nat) (occs : list nat) :
  render (excerpt (map spaceLF body) n occs)
  = map spaceLF (render (excerpt body n occs)).
Proof.
  destruct occs as [|o occs]; [|apply render_windows_spaceLF].
  cbn [excerpt render map concat render1]. by rewrite !app_nil_r.
Qed.

Lemma CR_free_sub (s : str) (a b : nat) : CR ∉ s → CR ∉ sub s a b.
Proof.
  intros H Hin. apply H. unfold sub in Hin.
  by apply (subseteq_take b), (subseteq_drop a).
Qed.

Lemma CR_free_windows (body : str) (n k p : nat) (occs : list nat) :
  CR ∉ body → CR ∉ render (windows body n k p occs).
Proof.
  intros Hb.
  assert (HE : CR ∉ ELL) by (rewrite list_elem_of_In; vm_compute; intuition discriminate).
  assert (HB : CR ∉ HLB) by (rewrite list_elem_of_In; vm_compute; intuition discriminate).
  assert (HL : CR ∉ HLE) by (rewrite list_elem_of_In; vm_compute; intuition discriminate).
  revert k p. induction occs as [|o occs IH]; intros k p.
  - cbn [windows]. unfold trailing.
    destruct (_ <? _)%nat; cbn [render map concat render1];
      rewrite !app_nil_r, ?not_elem_of_app; auto using CR_free_sub.
  - cbn [windows]. rewrite render_app, render_cons. cbn [render1].
    rewrite !not_elem_of_app. split; [|auto using CR_free_sub].
    unfold between. destruct (_ <? _)%nat; cbn [render map concat render1];
      rewrite !app_nil_r, ?not_elem_of_app; auto using CR_free_sub.
Qed.

(** C8, as amended.  The new lines are replaced after the excerpt is built,
    not before: occurrences are located in the raw body and every offset,
    the 60 bytes of context included, counts raw bytes; the marked-up text
    is then stripped of its new lines.  The two orders give the same text
    when the body holds no carriage return and the folded phrase holds
    neither a space nor a new line (each new line is then one byte, and no
    occurrence appears or disappears with the replacement).  The statement
    is for ASCII text, on which the folded copy has the offsets of the
    body; [lower] stands for [strings.ToLower], which folds ASCII strings
    byte by byte. *)
Theorem C8_newlines_after_marking
  (lower : str → str) (fuel : nat) (phrase body : str) :
  (∀ s, Go.isASCII s = true → lower s = Go.ToLower s) →
  Go.isASCII body = true → Go.isASCII phrase = true →
  CR ∉ body →
  SP ∉ Go.ToLower phrase → LF ∉ Go.ToLower phrase →
  Go.ToLower phrase ≠ [] →
  (length body < fuel)%nat →
  ∃ out,
    newRun_row_with lower fuel [phrase] body = Done out
    ∧ newRun_mark_with lower fuel phrase (stripNewlines body) = Done out.
Proof.
  intros Hl Hb Hp Hcr Hsp Hlf Hk Hf.
  exists (map spaceLF (render (excerptOf body phrase))).
  unfold newRun_row_with. rewrite (newRun_mark_with_spec lower) by done.
  cbn [outcome_map].
  rewrite (newRun_mark_with_ascii lower) by (by (done || apply isASCII_stripNewlines)).
  rewrite (stripNewlines_map body) by done.
  rewrite newRun_mark_spec by (rewrite ?length_map; done).
  unfold excerptOf, MatchLocator.
  rewrite ToLower_spaceLF, length_map, locateFrom_spaceLF by done.
  rewrite render_excerpt_spaceLF. split; [|done].
  f_equal. apply stripNewlines_map.
  destruct (locateFrom _ _ _ _) as [|o occs].
  - cbn [excerpt render map concat render1]. by rewrite app_nil_r.
  - by apply CR_free_windows.
Qed.

Lemma C8_newlines_after_marking_witness :
  ∃ out,
    newRun_row_with Go.ToLower 9 [B "b"] [ "a"; LF; "b"; LF; "c" ]%byte = Done out
    ∧ newRun_mark_with Go.ToLower 9 (B "b")
        (stripNewlines [ "a"; LF; "b"; LF; "c" ]%byte) = Done out.
Proof.
  apply C8_newlines_after_marking.
  - done.
  - reflexivity.
  - reflexivity.
  - rewrite list_elem_of_In. vm_compute. intuition discriminate.
  - rewrite list_elem_of_In. vm_compute. intuition discriminate.
  - rewrite list_elem_of_In. vm_compute. intuition discriminate.
  - discriminate.
  - vm_compute. lia.
Defined.

(** C8 as stated fails.  The body is forty "\r\n" and an "x".  The code
    finds "x" at offset 80 of the raw body, opens a window 60 raw bytes
    before it behind an ellipsis, and the 30 new lines in the window become
    30 spaces.  With the new lines replaced first, "x" is at offset 40, no
    ellipsis is written and 40 spaces stand before the highlight. *)
Lemma C8_counterexample :
  let body := concat (replicate 40 [CR; LF]) ++ B "x" in
  newRun_row 100 [B "x"] body
  = Done (ELL ++ replicate 30 SP ++ HLB ++ B "x" ++ HLE)
  ∧ newRun_mark 100 (B "x") (stripNewlines body)
    = Done (replicate 40 SP ++ HLB ++ B "x" ++ HLE)
  ∧ newRun_row 100 [B "x"] body ≠ newRun_mark 100 (B "x") (stripNewlines body).
Proof.
  cbv zeta. split; [by vm_compute|]. split; [by vm_compute|].
  intros H.
  apply (f_equal (λ o, match o with Done s => length s | _ => 0%nat end)) in H.
  vm_compute in H. discriminate.
Qed.

(** ** More on [indexAt] *)

Lemma slice_suffix (s : str) (n : Z) :
  0 ≤ n ≤ len s → Go.slice s n (len s) = Some (drop (Z.to_nat n) s).
Proof.
  intros Hn. unfold len in Hn.
  pose proof (slice_app_suffix [] s (Z.to_nat n)) as H.
  rewrite app_nil_l in H. rewrite <- H by lia. f_equal.
  change (len []) with 0. lia.
Qed.

(** [indexAt], in range.  For [0 <= n <= len(s)] the call returns; the
    result is -1 when [key] occurs nowhere at or after offset [n], and
    otherwise the offset, counted from the start of [s], of the first
    occurrence at or after [n], which lies within [s]. *)
Theorem indexAt_first_from (s key : str) (n : Z) :
  0 ≤ n ≤ len s →
  ∃ r, indexAt s key n = Some r
       ∧ ((r = -1 ∧ ∀ i, (Z.to_nat n ≤ i)%nat → ¬ occursAt s key i)
          ∨ (n ≤ r ∧ r + len key ≤ len s
             ∧ occursAt s key (Z.to_nat r)
             ∧ ∀ i, (Z.to_nat n ≤ i < Z.to_nat r)%nat → ¬ occursAt s key i)).
Proof.
  intros Hn. unfold indexAt. rewrite slice_suffix by done.
  cbn [mbind option_bind]. unfold Go.Index.
  destruct (Go.index (drop (Z.to_nat n) s) key) as [j|] eqn:Hj.
  - exists (Z.of_nat j + n). split.
    { by replace (Z.of_nat j >? -1) with true by (symmetry; apply Z.gtb_lt; lia). }
    right. pose proof (index_bound _ _ _ Hj) as Hb. rewrite length_drop in Hb.
    apply index_Some in Hj as [H1 H2].
    replace (Z.to_nat (Z.of_nat j + n)) with (Z.to_nat n + j)%nat by lia.
    split; [lia|]. split; [unfold len in *; lia|]. split.
    + unfold occursAt. by rewrite <- drop_drop.
    + intros i Hi. unfold occursAt.
      replace i with (Z.to_nat n + (i - Z.to_nat n))%nat by lia.
      rewrite <- drop_drop, H2 by lia. done.
  - exists (-1). split; [done|]. left. split; [done|].
    intros i Hi. unfold occursAt.
    replace i with (Z.to_nat n + (i - Z.to_nat n))%nat by lia.
    rewrite <- drop_drop, (index_None _ _ _ Hj). done.
Qed.

Lemma indexAt_first_from_witness :
  ∃ r, indexAt (B "abcabc") (B "bc") 2 = Some r
       ∧ ((r = -1 ∧ ∀ i, (Z.to_nat 2 ≤ i)%nat → ¬ occursAt (B "abcabc") (B "bc") i)
          ∨ (2 ≤ r ∧ r + len (B "bc") ≤ len (B "abcabc")
             ∧ occursAt (B "abcabc") (B "bc") (Z.to_nat r)
             ∧ ∀ i, (Z.to_nat 2 ≤ i < Z.to_nat r)%nat
                    → ¬ occursAt (B "abcabc") (B "bc") i)).
Proof. apply indexAt_first_from. vm_compute. split; discriminate. Defined.

(** [indexAt], out of range.  A start offset below 0 or beyond the end of
    [s] makes the slice [s[n:]] panic. *)
Theorem indexAt_out_of_range (s key : str) (n : Z) :
  n < 0 ∨ len s < n → indexAt s key n = None.
Proof.
  intros Hn. unfold indexAt, Go.slice.
  replace ((0 <=? n) && (n <=? len s) && (len s <=? len s)) with false; [done|].
  symmetry. rewrite !andb_false_iff, !Z.leb_gt. lia.
Qed.

Lemma indexAt_out_of_range_witness : indexAt (B "abc") (B "c") 4 = None.
Proof. apply indexAt_out_of_range. right. vm_compute. reflexivity. Defined.

(** [indexAt] with the empty key finds it at once: the result is the start
    offset itself. *)
Theorem indexAt_empty_key (s : str) (n : Z) :
  0 ≤ n ≤ len s → indexAt s [] n = Some n.
Proof.
  intros Hn. unfold indexAt. rewrite slice_suffix by done.
  cbn [mbind option_bind]. unfold Go.Index. by rewrite index_nil_key.
Qed.

Lemma indexAt_empty_key_witness : indexAt (B "abc") [] 3 = Some 3.
Proof. apply indexAt_empty_key. vm_compute. split; discriminate. Defined.

(** ** [doQuery] *)

(** The statement has one placeholder for each argument handed to
    [db.Query], whatever the book name and the flag. *)
Theorem doQuery_placeholders (query bookName : str) (all : bool) :
  countByte "?" (doQuery_statement query bookName all).1
  = length (doQuery_statement query bookName all).2.
Proof. destruct bookName, all; reflexivity. Qed.

(** The statement leaves the archived books out exactly when no book name
    is given and [all] is off: with a book name the flag changes nothing,
    and the archived books are searched too. *)
Theorem doQuery_archive_filter (query bookName : str) (all : bool) :
  Go.Index (doQuery_statement query bookName all).1 (B "books.archive = false") ≠ -1
  ↔ bookName = [] ∧ all = false.
Proof.
  destruct bookName as [|b bookName], all; cbn [doQuery_statement negb fst];
    (split; [intros H; try (exfalso; apply H; by vm_compute); done
            |intros [? ?]; try done]).
Qed.

(** The book name, when given, is the second argument, after the query,
    and the statement then matches it with LIKE against the book label. *)
Theorem doQuery_book_argument (query bookName : str) (all : bool) :
  bookName ≠ [] →
  (doQuery_statement query bookName all).2 = [query; bookName]
  ∧ Go.Index (doQuery_statement query bookName all).1 (B "books.label LIKE ?") ≠ -1
  ∧ doQuery_statement query bookName all = doQuery_statement query bookName (negb all).
Proof.
  destruct bookName as [|b bookName]; [done|]. intros _.
  cbn [doQuery_statement]. repeat split. by vm_compute.
Qed.

Lemma doQuery_book_argument_witness :
  (doQuery_statement (B "%heap%") (B "algorithm") false).2 = [B "%heap%"; B "algorithm"]
  ∧ Go.Index (doQuery_statement (B "%heap%") (B "algorithm") false).1
      (B "books.label LIKE ?") ≠ -1
  ∧ doQuery_statement (B "%heap%") (B "algorithm") false
    = doQuery_statement (B "%heap%") (B "algorithm") (negb false).
Proof. apply doQuery_book_argument. discriminate. Defined.

(** ** The formatting loop of [formatFTSSnippet] *)

(** A format of [n] verbs [%s]. *)
Lemma Sprintf_s_verbs (args : list str) :
  Sprintf_s (concat (replicate (length args) (B "%s"))) args = Some (concat args).
Proof.
  induction args as [|a args IH]; [done|].
  cbn [length replicate concat]. change (B "%s") with ["%"; "s"]%byte.
  cbn [app Sprintf_s Byte.eqb]. change (["%"; "s"]%byte) with (B "%s").
  by rewrite IH.
Qed.

Lemma verbs_snoc (n : nat) :
  concat (replicate n (B "%s")) ++ B "%s" = concat (replicate (S n) (B "%s")).
Proof.
  induction n as [|n IH]; [done|].
  cbn [replicate concat]. rewrite <- app_assoc, IH. reflexivity.
Qed.

Section FormatFacts.
Variable yellow : str → str.

Lemma formatFTSSnippet_step_wf (st : fmtState) (tok : token) :
  fmtWf st → fmtWf (formatFTSSnippet_step yellow st tok).
Proof.
  destruct st as [[f a] b]. unfold fmtWf. cbn [fst snd]. intros ->.
  unfold formatFTSSnippet_step. destruct (Kind tok); cbn [fst snd];
    rewrite ?length_app, ?verbs_snoc; cbn [length]; try done;
    by rewrite Nat.add_1_r.
Qed.

Lemma formatFTSSnippet_fold_wf (toks : list token) (st : fmtState) :
  fmtWf st → fmtWf (fold_left (formatFTSSnippet_step yellow) toks st).
Proof.
  revert st. induction toks as [|tok toks IH]; intros st Hst; [done|].
  cbn [fold_left]. by apply IH, formatFTSSnippet_step_wf.
Qed.

Lemma formatFTSSnippet_toks_args (toks : list token) :
  formatFTSSnippet_toks yellow toks
  = Some (concat (fold_left (formatFTSSnippet_step yellow) toks ([], [], [])).1.2).
Proof.
  unfold formatFTSSnippet_toks.
  pose proof (formatFTSSnippet_fold_wf toks ([], [], []) eq_refl) as H.
  destruct (fold_left _ toks _) as [[f a] b]. unfold fmtWf in H.
  cbn [fst snd] in *. subst f. apply Sprintf_s_verbs.
Qed.

Lemma fold_charToks (t : str) (st : fmtState) :
  fold_left (formatFTSSnippet_step yellow) (charToks t) st
  = (st.1.1, st.1.2, st.2 ++ t).
Proof.
  revert st. induction t as [|x t IH]; intros [[f a] b]; cbn [fst snd].
  - by rewrite app_nil_r.
  - cbn [charToks map fold_left]. fold (charToks t). rewrite IH.
    cbn [formatFTSSnippet_step Kind Value fst snd]. by rewrite <- app_assoc.
Qed.

Lemma fold_pieceToks_text (p : piece) (st : fmtState) :
  fmtText (fold_left (formatFTSSnippet_step yellow) (pieceToks p) st)
  = fmtText st ++ shown yellow p.
Proof.
  destruct st as [[f a] b]. unfold fmtText.
  destruct p as [t|t|]; cbn [pieceToks shown].
  - rewrite fold_charToks. cbn [fst snd]. by rewrite app_assoc.
  - cbn [fold_left]. rewrite fold_left_app, fold_charToks.
    cbn [fold_left formatFTSSnippet_step markTok Kind fst snd app].
    rewrite !concat_app. cbn [concat]. rewrite !app_nil_r. by rewrite <- app_assoc.
  - cbn [fold_left]. rewrite fold_left_app, fold_charToks.
    cbn [fold_left formatFTSSnippet_step markTok Kind fst snd app].
    rewrite !concat_app. cbn [concat]. rewrite !app_nil_r. by rewrite <- app_assoc.
Qed.

Lemma fold_pieces_text (ps : list piece) (st : fmtState) :
  fmtText (fold_left (formatFTSSnippet_step yellow) (concat (map pieceToks ps)) st)
  = fmtText st ++ concat (map (shown yellow) ps).
Proof.
  revert st. induction ps as [|p ps IH]; intros st.
  - cbn [map concat fold_left]. by rewrite app_nil_r.
  - cbn [map concat]. rewrite fold_left_app, IH, fold_pieceToks_text.
    by rewrite <- app_assoc.
Qed.

Lemma step_EOL_text (st : fmtState) :
  concat (formatFTSSnippet_step yellow st (markTok tokenKindEOL)).1.2 = fmtText st.
Proof.
  destruct st as [[f a] b]. unfold fmtText. cbn [formatFTSSnippet_step markTok Kind fst snd].
  rewrite concat_app. cbn [concat]. by rewrite app_nil_r.
Qed.

(** The format and the operands always agree in number: the final
    [fmt.Sprintf] has a verb for every operand and the other way round,
    whatever the tokens. *)
Theorem formatFTSSnippet_verbs_match_operands (toks : list token) :
  is_Some (formatFTSSnippet_toks yellow toks).
Proof. rewrite formatFTSSnippet_toks_args. by eexists. Qed.

(** On the tokens of a marked text, closed by an end-of-line token, the
    loop gives the plain pieces as they are and every highlighted piece, an
    ellipsis too, in yellow, in the order of the text. *)
Theorem formatFTSSnippet_shows_pieces (ps : list piece) :
  formatFTSSnippet_toks yellow
    (concat (map pieceToks ps) ++ [markTok tokenKindEOL])
  = Some (concat (map (shown yellow) ps)).
Proof.
  rewrite formatFTSSnippet_toks_args. f_equal.
  rewrite fold_left_app. cbn [fold_left]. rewrite step_EOL_text.
  by rewrite fold_pieces_text.
Qed.

(** Text is written out only at a mark: the bytes read after the last
    mark token never reach the output. *)
Theorem formatFTSSnippet_drops_open_text (toks : list token) (t : str) :
  formatFTSSnippet_toks yellow (toks ++ charToks t)
  = formatFTSSnippet_toks yellow toks.
Proof.
  rewrite !formatFTSSnippet_toks_args. rewrite fold_left_app, fold_charToks.
  reflexivity.
Qed.

(** The mark that closes a stretch of text decides how it is shown, not
    the mark that opens it: after any mark, text closed by an
    end-of-highlight token comes out in yellow, text closed by a begin
    token or by an end-of-line token comes out plain. *)
Theorem formatFTSSnippet_closing_mark_decides
  (toks : list token) (k : tokenKind) (t : str) :
  k ≠ tokenKindChar →
  ∃ out,
    formatFTSSnippet_toks yellow (toks ++ [markTok k]) = Some out
    ∧ formatFTSSnippet_toks yellow
        (toks ++ [markTok k] ++ charToks t ++ [markTok tokenKindHLEnd])
      = Some (out ++ yellow t)
    ∧ formatFTSSnippet_toks yellow
        (toks ++ [markTok k] ++ charToks t ++ [markTok tokenKindHLBegin])
      = Some (out ++ t)
    ∧ formatFTSSnippet_toks yellow
        (toks ++ [markTok k] ++ charToks t ++ [markTok tokenKindEOL])
      = Some (out ++ t).
Proof.
  intros Hk. eexists. split; [apply formatFTSSnippet_toks_args|].
  rewrite !formatFTSSnippet_toks_args.
  rewrite !fold_left_app, !fold_charToks.
  destruct (fold_left _ toks _) as [[f a] b].
  destruct k; [done| | |];
    cbn [fold_left formatFTSSnippet_step markTok Kind fst snd app];
    rewrite !concat_app; cbn [concat]; by rewrite !app_nil_r.
Qed.
End FormatFacts.

Lemma formatFTSSnippet_closing_mark_decides_witness :
  ∃ out,
    formatFTSSnippet_toks (λ t, B "[" ++ t ++ B "]")
      (charToks (B "a") ++ [markTok tokenKindEOL]) = Some out
    ∧ formatFTSSnippet_toks (λ t, B "[" ++ t ++ B "]")
        (charToks (B "a") ++ [markTok tokenKindEOL] ++ charToks (B "b")
           ++ [markTok tokenKindHLEnd])
      = Some (out ++ (B "[" ++ B "b" ++ B "]"))
    ∧ formatFTSSnippet_toks (λ t, B "[" ++ t ++ B "]")
        (charToks (B "a") ++ [markTok tokenKindEOL] ++ charToks (B "b")
           ++ [markTok tokenKindHLBegin])
      = Some (out ++ B "b")
    ∧ formatFTSSnippet_toks (λ t, B "[" ++ t ++ B "]")
        (charToks (B "a") ++ [markTok tokenKindEOL] ++ charToks (B "b")
           ++ [markTok tokenKindEOL])
      = Some (out ++ B "b").
Proof.
  apply (formatFTSSnippet_closing_mark_decides
           (λ t, B "[" ++ t ++ B "]") (charToks (B "a")) tokenKindEOL (B "b")).
  discriminate.
Defined.

(** Without colour, and closed by an end-of-line token, the loop gives back
    exactly the bytes of text of the tokens, in order: the marks leave no
    trace and no byte is lost. *)
Theorem formatFTSSnippet_keeps_text (toks : list token) :
  formatFTSSnippet_toks (λ t, t) (toks ++ [markTok tokenKindEOL])
  = Some (tokText toks).
Proof.
  rewrite formatFTSSnippet_toks_args. f_equal.
  rewrite fold_left_app. cbn [fold_left]. rewrite step_EOL_text.
  assert (H : ∀ st, fmtText (fold_left (formatFTSSnippet_step (λ t, t)) toks st)
                    = fmtText st ++ tokText toks).
  { induction toks as [|tok toks IH]; intros [[f a] b].
    - cbn [fold_left tokText omap]. by rewrite app_nil_r.
    - cbn [fold_left]. rewrite IH. unfold fmtText, tokText.
      cbn [omap list_omap formatFTSSnippet_step].
      destruct (Kind tok); cbn [fst snd mbind option_bind];
        rewrite ?concat_app; cbn [concat]; rewrite ?app_nil_r, <- ?app_assoc; done. }
  by rewrite H.
Qed.

(** ** More on [escapePhrase] *)

Lemma escapePhrase_loop_acc (b : str) (idx : Z) (terms : list str) :
  escapePhrase_loop b idx terms = b ++ escapePhrase_loop [] idx terms.
Proof.
  revert b idx. induction terms as [|t terms IH]; intros b idx.
  - cbn [escapePhrase_loop]. by rewrite app_nil_r.
  - cbn [escapePhrase_loop]. rewrite IH. symmetry. rewrite IH.
    destruct (negb (idx =? len t - 1)); rewrite <- ?app_assoc; reflexivity.
Qed.

Lemma escapePhrase_loop_cons (idx : Z) (t : str) (terms : list str) :
  escapePhrase_loop [] idx (t :: terms)
  = quoteTerm t ++ (if idx =? len t - 1 then [] else [SP])
      ++ escapePhrase_loop [] (idx + 1) terms.
Proof.
  cbn [escapePhrase_loop]. rewrite escapePhrase_loop_acc. unfold quoteTerm.
  destruct (idx =? len t - 1); cbn [negb app]; rewrite <- ?app_assoc; reflexivity.
Qed.

Lemma fieldsFrom_nil (cur s : str) :
  Go.fieldsFrom cur s = [] ↔ cur = [] ∧ Forall (λ b, Go.isSpace b = true) s.
Proof.
  revert cur. induction s as [|x s IH]; intros cur; cbn [Go.fieldsFrom].
  - destruct cur; split; try done. by intros [? _].
  - destruct (Go.isSpace x) eqn:Hx.
    + destruct cur.
      * rewrite IH. split; intros [? H]; (split; [done|]).
        -- by constructor.
        -- by inversion H.
      * split; [done|]. by intros [? _].
    + rewrite IH. split.
      * intros [H _]. by destruct cur.
      * intros [_ H]. inversion H; congruence.
Qed.

Lemma withoutSpaces_app (s t : str) :
  withoutSpaces (s ++ t) = withoutSpaces s ++ withoutSpaces t.
Proof. apply List.filter_app. Qed.

Lemma withoutSpaces_term (t : str) : SP ∉ t → withoutSpaces t = t.
Proof.
  induction t as [|x t IH]; [done|]. rewrite not_elem_of_cons. intros [Hx Ht].
  unfold withoutSpaces in *. cbn [List.filter].
  destruct (Byte.eqb x SP) eqn:E.
  - apply Byte.byte_dec_bl in E. by subst x.
  - cbn [negb]. by rewrite IH.
Qed.

(** Every term is wrapped in its own pair of double quotes and the terms
    keep their order; between and after them [escapePhrase] writes spaces
    only: without its spaces the result is the quoted terms, one after the
    other.  [fields] stands for [strings.Fields], whose terms hold no white
    space, so no space byte. *)
Theorem escapePhrase_quotes_terms_in_order (fields : str → list str) (s : str) :
  Forall (λ t, SP ∉ t) (fields s) →
  withoutSpaces (escapePhrase_with fields s) = concat (map quoteTerm (fields s)).
Proof.
  unfold escapePhrase_with. generalize (fields s). intros terms H.
  generalize 0. induction H as [|t terms Ht _ IH]; intros idx; [done|].
  rewrite escapePhrase_loop_cons, !withoutSpaces_app, IH.
  cbn [map concat]. f_equal.
  - unfold quoteTerm. rewrite !withoutSpaces_app, (withoutSpaces_term t Ht).
    reflexivity.
  - by destruct (idx =? len t - 1).
Qed.

Lemma escapePhrase_quotes_terms_in_order_witness :
  withoutSpaces (escapePhrase_with Go.Fields (B "merge  sort"))
  = concat (map quoteTerm (Go.Fields (B "merge  sort"))).
Proof.
  apply escapePhrase_quotes_terms_in_order.
  repeat constructor; rewrite list_elem_of_In; vm_compute; intuition discriminate.
Defined.

(** The result is empty exactly when [strings.Fields] finds no term; for
    an ASCII input, on which [strings.Fields] splits at the six ASCII
    white-space bytes, that is when the input holds white space only (the
    empty input too).  [fields] stands for [strings.Fields]. *)
Theorem escapePhrase_empty_iff (fields : str → list str) (s : str) :
  (∀ s, Go.isASCII s = true → fields s = Go.Fields s) →
  Go.isASCII s = true →
  (escapePhrase_with fields s = [] ↔ fields s = [])
  ∧ (escapePhrase_with fields s = [] ↔ Forall (λ b, Go.isSpace b = true) s).
Proof.
  intros Hf Hs. unfold escapePhrase_with.
  assert (H1 : escapePhrase_loop [] 0 (fields s) = [] ↔ fields s = []).
  { destruct (fields s) as [|t terms]; [done|].
    rewrite escapePhrase_loop_cons. split; [|done].
    unfold quoteTerm. discriminate. }
  split; [exact H1|]. rewrite H1, (Hf s Hs). unfold Go.Fields.
  rewrite fieldsFrom_nil. split; [by intros [_ ?] | done].
Qed.

Lemma escapePhrase_empty_iff_witness :
  (escapePhrase_with Go.Fields [SP; TAB; LF] = [] ↔ Go.Fields [SP; TAB; LF] = [])
  ∧ (escapePhrase_with Go.Fields [SP; TAB; LF] = []
     ↔ Forall (λ b, Go.isSpace b = true) [SP; TAB; LF]).
Proof. apply escapePhrase_empty_iff; [done | reflexivity]. Defined.

Lemma escapePhrase_loop_format (terms : list str) (idx : Z) :
  escapePhrase_loop [] idx terms = Go.Join (map quoteTerm terms) [SP]
  ↔ ∀ i t, terms !! i = Some t →
           (idx + Z.of_nat i = len t - 1 ↔ S i = length terms).
Proof.
  revert idx. induction terms as [|t rest IH]; intros idx.
  - split; [intros _ i t; by rewrite lookup_nil | done].
  - rewrite escapePhrase_loop_cons. destruct rest as [|r rs].
    + cbn [map Go.Join escapePhrase_loop]. rewrite app_nil_r.
      destruct (Z.eqb_spec idx (len t - 1)) as [He|Hne].
      * rewrite app_nil_r. split; [|done]. intros _ [|i] t'; [|done].
        intros [= <-]. cbn [length]. split; [done | lia].
      * split.
        -- intros H. apply (f_equal length) in H.
           rewrite length_app in H. cbn [length] in H. lia.
        -- intros H. exfalso. apply Hne.
           specialize (H 0%nat t eq_refl). cbn [length] in H. lia.
    + change (Go.Join (map quoteTerm (t :: r :: rs)) [SP])
        with (quoteTerm t ++ [SP] ++ Go.Join (map quoteTerm (r :: rs)) [SP]).
      destruct (Z.eqb_spec idx (len t - 1)) as [He|Hne].
      * split.
        -- intros H. apply app_inv_head in H.
           rewrite escapePhrase_loop_cons in H. discriminate.
        -- intros H. exfalso.
           specialize (H 0%nat t eq_refl). cbn [length] in H. lia.
      * split.
        -- intros H. apply app_inv_head, app_inv_head in H.
           pose proof (proj1 (IH (idx + 1)) H) as H'. clear H. rename H' into H.
           intros [|i] t'.
           ++ intros [= <-]. cbn [length]. split; lia.
           ++ intros Hi. specialize (H i t' Hi). cbn [length] in *. lia.
        -- intros H. do 2 f_equal. apply (proj2 (IH (idx + 1))). intros i t' Hi.
           specialize (H (S i) t' Hi). cbn [length] in *. lia.
Qed.

(** [escapePhrase] gives the documented format, the quoted terms joined by
    single spaces, exactly when the separator test happens to agree with
    the position of each term: the term at index [i] has [i + 1] bytes if
    and only if it is the last one.  [fields] stands for [strings.Fields];
    the statement holds whatever terms it returns. *)
Theorem escapePhrase_format_iff (fields : str → list str) (s : str) :
  escapePhrase_with fields s = Go.Join (map quoteTerm (fields s)) [SP]
  ↔ ∀ i t, fields s !! i = Some t →
           (Z.of_nat i = len t - 1 ↔ S i = length (fields s)).
Proof.
  unfold escapePhrase_with. rewrite escapePhrase_loop_format.
  split; intros H i t Hi; specialize (H i t Hi); lia.
Qed.

(** ** More on the row loop of [newRun] *)

Lemma length_sub_le (s : str) (lo hi : nat) : (length (sub s lo hi) ≤ hi - lo)%nat.
Proof. unfold sub. rewrite length_drop, length_take. lia. Qed.

Lemma texts_highlight (t : str) (ps : list piece) :
  texts (Highlight t :: ps) = t ++ texts ps.
Proof. reflexivity. Qed.

Lemma Ellipsis_between (body : str) (k p o : nat) :
  Ellipsis ∈ between body k p o ↔ (p + k + C < o)%nat.
Proof.
  unfold between. destruct (Nat.ltb_spec (p + k + C) o) as [H|H].
  - split; [done|]. intros _. rewrite !elem_of_cons. auto.
  - split; [|lia]. intros Hin. apply list_elem_of_singleton in Hin. done.
Qed.

Lemma Ellipsis_trailing (body : str) (p : nat) :
  Ellipsis ∈ trailing body p ↔ (p + C < length body)%nat.
Proof.
  unfold trailing. destruct (Nat.ltb_spec (p + C) (length body)) as [H|H].
  - split; [done|]. intros _. rewrite !elem_of_cons. auto.
  - split; [|lia]. intros Hin. apply list_elem_of_singleton in Hin. done.
Qed.

Lemma Ellipsis_windows_cons (body : str) (n k p o : nat) (occs : list nat) :
  Ellipsis ∈ windows body n k p (o :: occs)
  ↔ (p + k + C < o)%nat ∨ Ellipsis ∈ windows body n C (o + n) occs.
Proof.
  cbn [windows]. rewrite elem_of_app, elem_of_cons, Ellipsis_between.
  split; [intros [?|[?|?]]; [by left | done | by right] | intros [?|?]; auto].
Qed.

Section Whole.
Variables lwr key body : str.
Hypothesis Hkey : key ≠ [].
Hypothesis Hlwr : length lwr = length body.

Lemma texts_windows_whole (k p : nat) (occs : list nat) :
  separated lwr key p occs →
  Ellipsis ∉ windows body (length key) k p occs →
  texts (windows body (length key) k p occs) = drop p body.
Proof.
  revert k p. induction occs as [|o occs IH]; intros k p.
  - intros _. cbn [windows]. rewrite Ellipsis_trailing. intros Hno.
    unfold trailing.
    replace (p + C <? length body)%nat with false
      by (symmetry; apply Nat.ltb_ge; lia).
    cbn [texts map concat text1]. rewrite app_nil_r. unfold sub.
    by rewrite take_ge.
  - intros (Hpo & Hocc & Hsep). rewrite Ellipsis_windows_cons. intros Hno.
    cbn [windows]. rewrite texts_app, texts_highlight, IH by tauto.
    unfold between.
    replace (p + k + C <? o)%nat with false
      by (symmetry; apply Nat.ltb_ge; lia).
    cbn [texts map concat text1]. rewrite app_nil_r.
    rewrite (drop_sub_split body p o) by done.
    rewrite (drop_sub_split body o (o + length key)) by lia.
    reflexivity.
Qed.


Lemma windows_short_body (k p : nat) (occs : list nat) :
  (length body ≤ C)%nat →
  separated lwr key p occs →
  Ellipsis ∉ windows body (length key) k p occs.
Proof.
  intros Hshort. revert k p. induction occs as [|o occs IH]; intros k p.
  - intros _. cbn [windows]. rewrite Ellipsis_trailing. lia.
  - intros (Hpo & Hocc & Hsep). rewrite Ellipsis_windows_cons.
    pose proof (occursAt_bound lwr key o Hkey Hocc) as Hb. rewrite Hlwr in Hb.
    intros [Hin|Hin]; [lia|]. by apply (IH C _ Hsep).
Qed.
End Whole.

Lemma windows_last (body : str) (n k p : nat) (l : list nat) (o : nat) :
  ∃ pre, windows body n k p (l ++ [o])
         = pre ++ Highlight (sub body o (o + n)) :: trailing body (o + n).
Proof.
  revert k p. induction l as [|x l IH]; intros k p; simpl.
  - by exists (between body k p o).
  - destruct (IH C (x + n)%nat) as [pre ->].
    exists (between body k p x ++ Highlight (sub body x (x + n)) :: pre).
    by rewrite <- app_assoc.
Qed.

Lemma length_render_trailing (body : str) (p : nat) :
  (length (render (trailing body p)) ≤ C + 22)%nat.
Proof.
  unfold trailing. destruct (Nat.ltb_spec (p + C) (length body)) as [H|H];
    cbn [render map concat render1]; rewrite ?app_nil_r, ?length_app, ?len_ELL.
  - pose proof (length_sub_le body p (p + C)). lia.
  - pose proof (length_sub_le body p (length body)). lia.
Qed.

Lemma length_render_between (body : str) (k p o : nat) :
  (p ≤ o)%nat → (k ≤ C)%nat →
  (length (render (between body k p o)) ≤ k + C + 22)%nat.
Proof.
  intros Hpo Hk. unfold between.
  destruct (Nat.ltb_spec (p + k + C) o) as [H|H];
    cbn [render map concat render1]; rewrite ?app_nil_r, ?length_app, ?len_ELL.
  - pose proof (length_sub_le body p (p + k)).
    pose proof (length_sub_le body (o - C) o). lia.
  - pose proof (length_sub_le body p o). lia.
Qed.

Lemma length_render_windows (lwr key body : str) (p : nat) (occs : list nat) :
  separated lwr key p occs →
  (length (render (windows body (length key) C p occs))
   ≤ length occs * (length key + 2 * C + 41) + C + 22)%nat.
Proof.
  revert p. induction occs as [|o occs IH]; intros p.
  - intros _. cbn [windows length]. pose proof (length_render_trailing body p). lia.
  - intros (Hpo & _ & Hsep). cbn [windows length].
    rewrite render_app, render_cons, !length_app. cbn [render1].
    rewrite !length_app, len_HLB, len_HLE.
    pose proof (length_render_between body C p o Hpo (le_n _)).
    pose proof (length_sub_le body o (o + length key)).
    specialize (IH _ Hsep). lia.
Qed.

Lemma Join_percent (a : str) (args : list str) :
  Go.Join (a :: args) (B "%") ++ B "%" = concat (map (λ x, x ++ B "%") (a :: args)).
Proof.
  revert a. induction args as [|b args IH]; intros a.
  - cbn [Go.Join map concat]. by rewrite app_nil_r.
  - change (Go.Join (a :: b :: args) (B "%"))
      with (a ++ B "%" ++ Go.Join (b :: args) (B "%")).
    rewrite <- !app_assoc, IH.
    change (map ?f (a :: ?l)) with (f a :: map f l). cbn [concat].
    by rewrite <- app_assoc.
Qed.

(** After [preRun] no row of ASCII text panics under an ASCII phrase:
    [args[0]] exists, and every slice of the loop and of the final
    truncation is within the body, for the empty phrase too and after any
    number of turns.  [lower] stands for [strings.ToLower], which folds
    ASCII strings byte by byte. *)
Theorem newRun_row_never_panics
  (lower : str → str) (fuel : nat) (args : list str) (body : str) :
  (∀ s, Go.isASCII s = true → lower s = Go.ToLower s) →
  (∀ arg0, head args = Some arg0 → Go.isASCII arg0 = true) →
  Go.isASCII body = true →
  preRun args = true → newRun_row_with lower fuel args body ≠ Panic.
Proof.
  intros Hl Ha Hb. destruct args as [|arg0 others]; [done|]. intros _.
  cbn [newRun_row_with].
  rewrite (newRun_mark_with_ascii lower) by (by (done || apply Ha)).
  pose proof (newRun_mark_no_panic fuel arg0 body) as H.
  by destruct (newRun_mark fuel arg0 body).
Qed.

Lemma newRun_row_never_panics_witness :
  newRun_row_with Go.ToLower 20 [B "quick"; B "fox"] (B "the quick brown fox")
  ≠ Panic.
Proof.
  apply newRun_row_never_panics.
  - done.
  - intros arg0 [= <-]. reflexivity.
  - reflexivity.
  - reflexivity.
Defined.

(** On ASCII text the loop ends exactly when the phrase is not empty: a
    result comes for some number of turns if and only if [args[0]] is not
    the empty string.  [lower] stands for [strings.ToLower], which folds
    ASCII strings byte by byte. *)
Theorem newRun_mark_terminates_iff (lower : str → str) (phrase body : str) :
  (∀ s, Go.isASCII s = true → lower s = Go.ToLower s) →
  Go.isASCII body = true → Go.isASCII phrase = true →
  ((∃ fuel out, newRun_mark_with lower fuel phrase body = Done out)
   ↔ phrase ≠ []).
Proof.
  intros Hl Hb Hp.
  assert (Heq : ∀ fuel, newRun_mark_with lower fuel phrase body
                        = newRun_mark fuel phrase body)
    by (intros fuel; by apply newRun_mark_with_ascii).
  split.
  - intros (fuel & out & H) ->. rewrite Heq in H. unfold newRun_mark in H.
    pose proof (newRun_loop_empty_key fuel [] body 0) as He.
    rewrite app_nil_l in He. change (len [] + Z.of_nat 0) with 0 in He.
    change (Go.ToLower []) with (@nil byte) in H.
    replace (Go.Index (Go.ToLower body) [])
      with (idxOf [] (length (@nil byte)) body) in H
      by (unfold Go.Index, idxOf; by rewrite !index_nil_key).
    by rewrite He in H.
  - intros Hne. exists (S (length body)), (render (excerptOf body phrase)).
    rewrite Heq. apply newRun_mark_spec; [by destruct phrase | lia].
Qed.

Lemma newRun_mark_terminates_iff_witness :
  (∃ fuel out,
     newRun_mark_with Go.ToLower fuel (B "quick") (B "the quick brown fox")
     = Done out)
  ↔ B "quick" ≠ [].
Proof. apply newRun_mark_terminates_iff; [done | reflexivity | reflexivity]. Defined.



(** An ASCII body of at most [c = 60] bytes is never cut: the excerpt has
    no ellipsis and carries the whole body.  [lower] stands for
    [strings.ToLower], which folds ASCII strings byte by byte. *)
Theorem newRun_short_body_whole
  (lower : str → str) (fuel : nat) (phrase body : str) :
  (∀ s, Go.isASCII s = true → lower s = Go.ToLower s) →
  Go.isASCII body = true → Go.isASCII phrase = true →
  Go.ToLower phrase ≠ [] →
  (length body < fuel)%nat →
  (length body ≤ C)%nat →
  newRun_mark_with lower fuel phrase body = Done (render (excerptOf body phrase))
  ∧ (Ellipsis ∉ excerptOf body phrase)
  ∧ texts (excerptOf body phrase) = body.
Proof.
  intros Hlow Hb Hp Hk Hf Hshort. split; [by apply newRun_mark_with_spec|].
  assert (Hno : Ellipsis ∉ excerptOf body phrase).
  { unfold excerptOf.
    pose proof (MatchLocator_leftmost body phrase Hk) as Hl.
    apply leftmost_separated in Hl.
    destruct (MatchLocator body phrase) as [|o occs].
    - cbn [excerpt]. intros Hin. apply list_elem_of_singleton in Hin. done.
    - cbn [excerpt].
      exact (windows_short_body (Go.ToLower body) (Go.ToLower phrase) body Hk
               (ToLower_length _) 0 0 (o :: occs) Hshort Hl). }
  split; [done|].
  unfold excerptOf in *.
  pose proof (MatchLocator_leftmost body phrase Hk) as Hl.
  apply leftmost_separated in Hl.
  destruct (MatchLocator body phrase) as [|o occs].
  - cbn [excerpt texts map concat text1]. by rewrite app_nil_r.
  - cbn [excerpt] in *. rewrite <- (drop_0 body) at 2.
    exact (texts_windows_whole (Go.ToLower body) (Go.ToLower phrase) body
             (ToLower_length _) 0 0 (o :: occs) Hl Hno).
Qed.

Lemma newRun_short_body_whole_witness :
  newRun_mark_with Go.ToLower 20 (B "quick") (B "the quick brown fox")
  = Done (render (excerptOf (B "the quick brown fox") (B "quick")))
  ∧ (Ellipsis ∉ excerptOf (B "the quick brown fox") (B "quick"))
  ∧ texts (excerptOf (B "the quick brown fox") (B "quick")) = B "the quick brown fox".
Proof.
  apply newRun_short_body_whole.
  - done.
  - reflexivity.
  - reflexivity.
  - discriminate.
  - vm_compute. lia.
  - vm_compute. lia.
Defined.

(** The size of the marked text depends on the number of occurrences, not
    on the size of the body: with [m >= 1] occurrences of a phrase of [n]
    bytes the loop gives at most [m * (n + 2 * 60 + 41) + 22] bytes (for
    each occurrence its two markers, its context on both sides and one
    ellipsis, and one more ellipsis at the end).  The statement is for
    ASCII text; [lower] stands for [strings.ToLower], which folds ASCII
    strings byte by byte. *)
Theorem newRun_output_length
  (lower : str → str) (fuel : nat) (phrase body : str) :
  (∀ s, Go.isASCII s = true → lower s = Go.ToLower s) →
  Go.isASCII body = true → Go.isASCII phrase = true →
  Go.ToLower phrase ≠ [] →
  (length body < fuel)%nat →
  MatchLocator body phrase ≠ [] →
  ∃ out,
    newRun_mark_with lower fuel phrase body = Done out
    ∧ (length out
       ≤ length (MatchLocator body phrase) * (length (Go.ToLower phrase) + 2 * C + 41)
         + 22)%nat.
Proof.
  intros Hlow Hb Hp Hk Hf Hocc. eexists.
  split; [by apply newRun_mark_with_spec|].
  unfold excerptOf.
  pose proof (MatchLocator_leftmost body phrase Hk) as Hl.
  apply leftmost_separated in Hl.
  destruct (MatchLocator body phrase) as [|o occs]; [done|].
  destruct Hl as (Hpo & _ & Hsep).
  cbn [excerpt windows length].
  rewrite render_app, render_cons, !length_app. cbn [render1].
  rewrite !length_app, len_HLB, len_HLE.
  pose proof (length_render_between body 0 0 o Hpo (Nat.le_0_l _)).
  pose proof (length_sub_le body o (o + length (Go.ToLower phrase))).
  pose proof (length_render_windows _ _ body _ _ Hsep).
  lia.
Qed.

Lemma newRun_output_length_witness :
  ∃ out,
    newRun_mark_with Go.ToLower 20 (B "quick") (B "the quick brown fox") = Done out
    ∧ (length out
       ≤ length (MatchLocator (B "the quick brown fox") (B "quick"))
         * (length (Go.ToLower (B "quick")) + 2 * C + 41) + 22)%nat.
Proof.
  apply newRun_output_length.
  - done.
  - reflexivity.
  - reflexivity.
  - discriminate.
  - vm_compute. lia.
  - discriminate.
Defined.

(** After the last occurrence: when more than [c = 60] bytes of the body
    follow it, the marked text ends with the 60 bytes of context and the
    ellipsis marker; otherwise it ends with the rest of the body, and no
    ellipsis is written there.  The statement is for ASCII text; [lower]
    stands for [strings.ToLower], which folds ASCII strings byte by byte. *)
Theorem newRun_trailing_context
  (lower : str → str) (fuel : nat) (phrase body : str) (l : list nat) (o : nat) :
  (∀ s, Go.isASCII s = true → lower s = Go.ToLower s) →
  Go.isASCII body = true → Go.isASCII phrase = true →
  Go.ToLower phrase ≠ [] →
  (length body < fuel)%nat →
  MatchLocator body phrase = l ++ [o] →
  let n := length (Go.ToLower phrase) in
  ∃ pre,
    newRun_mark_with lower fuel phrase body
    = Done (pre ++ (HLB ++ sub body o (o + n) ++ HLE)
              ++ (if (o + n + C <? length body)%nat
                  then sub body (o + n) (o + n + C) ++ ELL
                  else drop (o + n) body)).
Proof.
  intros Hlow Hb Hp Hk Hf Hocc n. rewrite (newRun_mark_with_spec lower) by done.
  unfold excerptOf. rewrite Hocc.
  assert (excerpt body (length (Go.ToLower phrase)) (l ++ [o])
          = windows body (length (Go.ToLower phrase)) 0 0 (l ++ [o])) as ->
    by (by destruct l).
  destruct (windows_last body n 0 0 l o) as [pre Hpre]. fold n. rewrite Hpre.
  exists (render pre). rewrite render_app, render_cons. do 3 f_equal.
  unfold trailing. destruct (o + n + C <? length body)%nat;
    cbn [render map concat render1]; rewrite ?app_nil_r; [done|].
  unfold sub. by rewrite take_ge.
Qed.

Lemma newRun_trailing_context_witness :
  let n := length (Go.ToLower (B "quick")) in
  ∃ pre,
    newRun_mark_with Go.ToLower 20 (B "quick") (B "the quick brown fox")
    = Done (pre ++ (HLB ++ sub (B "the quick brown fox") 4 (4 + n) ++ HLE)
              ++ (if (4 + n + C <? length (B "the quick brown fox"))%nat
                  then sub (B "the quick brown fox") (4 + n) (4 + n + C) ++ ELL
                  else drop (4 + n) (B "the quick brown fox"))).
Proof.
  apply (newRun_trailing_context Go.ToLower 20 (B "quick")
           (B "the quick brown fox") [] 4).
  - done.
  - reflexivity.
  - reflexivity.
  - discriminate.
  - vm_compute. lia.
  - reflexivity.
Defined.

(** The LIKE pattern: after [preRun] it is a percent sign followed by every
    argument, in order, each with a percent sign after it; the arguments go
    in as they are, their own wildcards included. *)
Theorem newRun_phrase_wraps_arguments (args : list str) :
  preRun args = true →
  newRun_phrase args = B "%" ++ concat (map (λ a, a ++ B "%") args).
Proof.
  destruct args as [|a args]; [done|]. intros _.
  unfold newRun_phrase. by rewrite Join_percent.
Qed.

Lemma newRun_phrase_wraps_arguments_witness :
  newRun_phrase [B "merge"; B "sort"]
  = B "%" ++ concat (map (λ a, a ++ B "%") [B "merge"; B "sort"]).
Proof. apply newRun_phrase_wraps_arguments. reflexivity. Defined.

(** The text of the statement does not depend on what the user typed: the
    query and the book name reach the database as arguments only, and two
    calls that agree on the flag and on whether a book name is given have
    the same statement. *)
Theorem doQuery_statement_text_fixed (query query' bookName bookName' : str) (all : bool) :
  (bookName = [] ↔ bookName' = []) →
  (doQuery_statement query bookName all).1
  = (doQuery_statement query' bookName' all).1.
Proof.
  intros H. destruct bookName as [|b bookName], bookName' as [|b' bookName'].
  - by destruct all.
  - destruct H as [H _]. by specialize (H eq_refl).
  - destruct H as [_ H]. by specialize (H eq_refl).
  - reflexivity.
Qed.

Lemma doQuery_statement_text_fixed_witness :
  (doQuery_statement (B "%a%") (B "x") true).1
  = (doQuery_statement (B "%'; --%") (B "y") true).1.
Proof. apply doQuery_statement_text_fixed. split; discriminate. Defined.

(** ** The occurrences that the loop highlights *)

Lemma ellipses_app (ps qs : list piece) :
  ellipses (ps ++ qs) = (ellipses ps + ellipses qs)%nat.
Proof.
  induction ps as [|[t|t|] ps IH]; cbn [app ellipses]; [done | done | done |].
  by rewrite IH.
Qed.

Lemma markersOf_windows_count (body : str) (n k p : nat) (occs : list nat) :
  markerFree body →
  markersOf (render (windows body n k p occs))
  = pairs (length occs + ellipses (windows body n k p occs)).
Proof.
  intros Hb. revert k p. induction occs as [|o occs IH]; intros k p.
  - cbn [windows length]. unfold trailing. destruct (_ <? _)%nat.
    + cbn [render map concat render1 ellipses]. rewrite app_nil_r.
      rewrite markersOf_free_app;
        [|by apply markerFree_sub | rewrite <- (app_nil_r ELL); apply atMarker_ELL].
      reflexivity.
    + cbn [render map concat render1 ellipses]. rewrite app_nil_r.
      rewrite <- (app_nil_r (sub _ _ _)).
      rewrite markersOf_free_app; [done | by apply markerFree_sub | by left].
  - cbn [windows length]. specialize (IH C (o + n)%nat).
    set (m := (length occs + ellipses (windows body n C (o + n) occs))%nat) in *.
    rewrite render_app, render_cons, ellipses_app. cbn [render1 ellipses].
    fold m.
    assert (markersOf ((HLB ++ sub body o (o + n) ++ HLE)
                         ++ render (windows body n C (o + n) occs))
            = pairs (S m)) as Hhl.
    { rewrite <- !app_assoc. rewrite markersOf_HLB.
      rewrite markersOf_free_app;
        [|by apply markerFree_sub | apply atMarker_HLE].
      rewrite markersOf_HLE, IH. reflexivity. }
    unfold between. destruct (_ <? _)%nat.
    + cbn [render map concat render1 ellipses]. rewrite app_nil_r.
      replace (S (length occs) + (1 + ellipses (windows body n C (o + n) occs)))%nat
        with (S (S m)) by (unfold m; lia).
      rewrite <- !app_assoc.
      rewrite markersOf_free_app;
        [|by apply markerFree_sub | apply atMarker_ELL].
      rewrite markersOf_ELL.
      rewrite markersOf_free_app;
        [|by apply markerFree_sub | apply atMarker_HLB].
      rewrite !app_assoc. rewrite <- (app_assoc HLB). rewrite Hhl. reflexivity.
    + cbn [render map concat render1 ellipses]. rewrite app_nil_r.
      replace (S (length occs) + (0 + ellipses (windows body n C (o + n) occs)))%nat
        with (S m) by (unfold m; lia).
      rewrite markersOf_free_app;
        [|by apply markerFree_sub | rewrite <- !app_assoc; apply atMarker_HLB].
      exact Hhl.
Qed.

(** On ASCII text, for a phrase whose folded form [key] is not empty, the
    loop gives the excerpt built on the offsets that the search finds when
    it resumes at the end of each occurrence.  The highlighted spans are
    the slices [body[o:o+len(key)]] of the original body at these offsets,
    one for each, in order, and a body free of marker text comes out with
    exactly one pair of markers for each occurrence and one for each
    ellipsis.  Each offset is an occurrence of the folded phrase in the
    folded body, each span has [len(key)] bytes and folds to [key]; every
    offset is the first occurrence at or after the end of the previous one,
    so the offsets increase without overlap; and their number is the
    number of times the phrase occurs without overlap: no family of
    non-overlapping occurrences is larger.  [lower] stands for
    [strings.ToLower], which folds ASCII strings byte by byte. *)
Theorem newRun_occurrence_coverage (lower : str → str) (body phrase : str) :
  (∀ s, Go.isASCII s = true → lower s = Go.ToLower s) →
  Go.isASCII body = true → Go.isASCII phrase = true →
  Go.ToLower phrase ≠ [] →
  let lwr := lower body in
  let key := lower phrase in
  let occs := MatchLocator body phrase in
  (∀ fuel, (length body < fuel)%nat →
     newRun_mark_with lower fuel phrase body
     = Done (render (excerptOf body phrase)))
  ∧ highlights (excerptOf body phrase) = map (λ o, sub body o (o + length key)) occs
  ∧ (markerFree body →
     markersOf (render (excerptOf body phrase))
     = pairs (length occs + ellipses (excerptOf body phrase)))
  ∧ Forall (λ o, occursAt lwr key o
                 ∧ length (sub body o (o + length key)) = length key
                 ∧ lower (sub body o (o + length key)) = key) occs
  ∧ leftmost lwr key 0 occs
  ∧ (∀ i o1 o2, occs !! i = Some o1 → occs !! S i = Some o2 →
       (o1 < o2 ∧ o1 + length key ≤ o2)%nat)
  ∧ (∀ k, separated lwr key 0 k → (length k ≤ length occs)%nat).
Proof.
  intros Hlow Hb Hp Hk lwr key occs. subst lwr key.
  rewrite (Hlow _ Hb), (Hlow _ Hp).
  set (lwr := Go.ToLower body). set (key := Go.ToLower phrase).
  pose proof (MatchLocator_leftmost body phrase Hk) as Hl.
  fold lwr key occs in Hl.
  assert (0 < length key)%nat as Hpos by (by apply nonempty_length).
  split; [|split; [|split; [|split; [|split; [|split]]]]].
  - intros fuel Hf. by apply newRun_mark_with_spec.
  - apply highlights_excerpt.
  - intros Hmf. unfold excerptOf. fold occs key. destruct occs as [|o occs'].
    + cbn [excerpt render map concat render1 ellipses length]. rewrite app_nil_r.
      exact Hmf.
    + cbn [excerpt]. by apply markersOf_windows_count.
  - apply leftmost_Forall in Hl. eapply Forall_impl; [exact Hl|].
    intros o Ho. split; [done|]. split.
    + apply occursAt_bound in Ho; [|done]. unfold lwr in Ho.
      rewrite ToLower_length in Ho. rewrite length_sub; lia.
    + rewrite Hlow by (by apply isASCII_drop, isASCII_take).
      by apply occursAt_sub.
  - done.
  - intros i o1 o2 H1 H2.
    pose proof (leftmost_increasing _ _ _ _ _ _ _ Hl H1 H2). lia.
  - intros k Hsep. by eapply leftmost_max.
Qed.

Lemma newRun_occurrence_coverage_witness :
  MatchLocator (B "Abab abAB") (B "aB") = [0; 2; 5; 7]%nat
  ∧ newRun_mark_with Go.ToLower 10 (B "aB") (B "Abab abAB")
    = Done (render (excerptOf (B "Abab abAB") (B "aB")))
  ∧ highlights (excerptOf (B "Abab abAB") (B "aB"))
    = [B "Ab"; B "ab"; B "ab"; B "AB"].
Proof.
  split; [reflexivity|].
  destruct (newRun_occurrence_coverage Go.ToLower (B "Abab abAB") (B "aB"))
    as (H1 & H2 & _); [done | reflexivity | reflexivity | discriminate |].
  split; [apply H1; vm_compute; lia | exact H2].
Defined.

(** On ASCII text a row does not depend on what [strings.ToLower] does
    outside ASCII: with any folding function [lower] that folds ASCII
    strings byte by byte, as [strings.ToLower] does, the row comes to the
    same end, a text, a panic or no end within the given turns, as with the
    byte-wise folding alone; the markers that the loop writes are ASCII, so
    the body stays ASCII from turn to turn. *)
Theorem newRun_row_with_ascii
  (lower : str → str) (fuel : nat) (args : list str) (body : str) :
  (∀ s, Go.isASCII s = true → lower s = Go.ToLower s) →
  (∀ arg0, head args = Some arg0 → Go.isASCII arg0 = true) →
  Go.isASCII body = true →
  newRun_row_with lower fuel args body = newRun_row fuel args body.
Proof.
  intros Hl Ha Hb. destruct args as [|arg0 others]; [done|].
  cbn [newRun_row_with newRun_row].
  by rewrite (newRun_mark_with_ascii lower) by (by (done || apply Ha)).
Qed.

Lemma newRun_row_with_ascii_witness :
  newRun_row_with (λ s, if Go.isASCII s then Go.ToLower s else [])
    20 [B "Quick"] (B "the quick brown fox")
  = newRun_row 20 [B "Quick"] (B "the quick brown fox").
Proof.
  apply newRun_row_with_ascii.
  - by intros s ->.
  - intros arg0 [= <-]. reflexivity.
  - reflexivity.
Defined.
